(** * Merkle tree over a flat array (package merkle, merkle.go)

    A shallow embedding of [merkle.go] and the properties of its
    construction, proof generation and proof verification.

    - Go's [int] is the 64-bit two's complement integer of the 64-bit
      ports (amd64, arm64): a [Z] with the wrap-around written out
      ([Int.wrap]).
    - Go's [string] and the hex digests are [string]; [[]byte] is
      [list byte].
    - [crypto/sha256] and [encoding/hex] are modelled in full ([Sha256],
      [Hex]) so that the digests of the development are the digests the
      program prints.
    - A call returns its results, among them the [error] value where the
      function has one, or stops in a run-time panic ([outcome]). *)

From Stdlib Require Import ZArith Lia List String Ascii.
From Stdlib.Strings Require Import Byte.
From stdpp Require Import base list.
Import ListNotations.
Local Open Scope Z_scope.

(* ================================================================= *)
(** ** crypto/sha256: SHA-256 as in FIPS 180-4 *)

Module Sha256.

Definition mask32 : Z := 2 ^ 32 - 1.

Definition trunc32 (x : Z) : Z := Z.land x mask32.

Definition plus32 (x y : Z) : Z := trunc32 (x + y).

(** Circular right shift of a 32-bit word. *)
Definition rotr (n x : Z) : Z :=
  Z.lor (Z.shiftr x n) (trunc32 (Z.shiftl x (32 - n))).

Definition choose (x y z : Z) : Z :=
  Z.lxor (Z.land x y) (Z.land (Z.lxor x mask32) z).

Definition majority (x y z : Z) : Z :=
  Z.lxor (Z.lxor (Z.land x y) (Z.land x z)) (Z.land y z).

Definition big_sigma0 (x : Z) : Z :=
  Z.lxor (Z.lxor (rotr 2 x) (rotr 13 x)) (rotr 22 x).

Definition big_sigma1 (x : Z) : Z :=
  Z.lxor (Z.lxor (rotr 6 x) (rotr 11 x)) (rotr 25 x).

Definition small_sigma0 (x : Z) : Z :=
  Z.lxor (Z.lxor (rotr 7 x) (rotr 18 x)) (Z.shiftr x 3).

Definition small_sigma1 (x : Z) : Z :=
  Z.lxor (Z.lxor (rotr 17 x) (rotr 19 x)) (Z.shiftr x 10).

(** The first sixty-four primes.  The round constants are the first 32
    bits of the fractional parts of their cube roots, the initial state
    the first 32 bits of the fractional parts of the square roots of the
    first eight. *)
Definition primes : list Z :=
  [   2;   3;   5;   7;  11;  13;  17;  19;  23;  29;  31;  37;  41;
     43;  47;  53;  59;  61;  67;  71;  73;  79;  83;  89;  97; 101;
    103; 107; 109; 113; 127; 131; 137; 139; 149; 151; 157; 163; 167;
    173; 179; 181; 191; 193; 197; 199; 211; 223; 227; 229; 233; 239;
    241; 251; 257; 263; 269; 271; 277; 281; 283; 293; 307; 311 ].

(** Integer cube root, one bit at a time from bit [bits - 1] down. *)
Fixpoint cube_root (bits : nat) (n r : Z) : Z :=
  match bits with
  | O => r
  | S b =>
      let c := r + 2 ^ Z.of_nat b in
      cube_root b n (if c * c * c <=? n then c else r)
  end.

Definition round_constant (p : Z) : Z :=
  trunc32 (cube_root 36 (p * 2 ^ 96) 0).

Definition initial_word (p : Z) : Z :=
  trunc32 (Z.sqrt (p * 2 ^ 64)).

Definition K : list Z := Eval vm_compute in map round_constant primes.

Definition H0 : list Z := Eval vm_compute in map initial_word (take 8 primes).

(** Padding: the byte 0x80, zero bytes up to 56 modulo 64, and the length
    of the message in bits as a big-endian 64-bit integer. *)
Definition be_bytes (count : nat) (x : Z) : list Z :=
  map (fun k => Z.land (Z.shiftr x (8 * Z.of_nat k)) 255) (rev (seq 0 count)).

Definition pad (msg : list Z) : list Z :=
  let len := Z.of_nat (length msg) in
  let zeros := Z.to_nat ((55 - len) mod 64) in
  msg ++ [128] ++ replicate zeros 0 ++ be_bytes 8 (8 * len).

Definition be_word (bs : list Z) : Z :=
  fold_left (fun acc b => 256 * acc + b) bs 0.

(** Cut a byte sequence into big-endian 32-bit words. *)
Fixpoint words (count : nat) (bs : list Z) : list Z :=
  match count with
  | O => []
  | S c => be_word (take 4 bs) :: words c (drop 4 bs)
  end.

(** The message schedule, from a window holding the last sixteen words. *)
Fixpoint expand (count : nat) (window : list Z) : list Z :=
  match count with
  | O => []
  | S c =>
      let at_ k := nth k window 0 in
      let next :=
        plus32 (plus32 (small_sigma1 (at_ 14%nat)) (at_ 9%nat))
               (plus32 (small_sigma0 (at_ 1%nat)) (at_ 0%nat)) in
      next :: expand c (drop 1 window ++ [next])
  end.

Definition schedule (block : list Z) : list Z :=
  let first := words 16 block in
  first ++ expand 48 first.

Record state : Type := State {
  sa : Z; sb : Z; sc : Z; sd : Z; se : Z; sf : Z; sg : Z; sh : Z
}.

Definition round (s : state) (kw : Z * Z) : state :=
  let t1 :=
    plus32 (plus32 (plus32 (sh s) (big_sigma1 (se s)))
                   (plus32 (choose (se s) (sf s) (sg s)) (fst kw)))
           (snd kw) in
  let t2 := plus32 (big_sigma0 (sa s)) (majority (sa s) (sb s) (sc s)) in
  State (plus32 t1 t2) (sa s) (sb s) (sc s)
        (plus32 (sd s) t1) (se s) (sf s) (sg s).

Definition compress (s : state) (block : list Z) : state :=
  let r := fold_left round (combine K (schedule block)) s in
  State (plus32 (sa s) (sa r)) (plus32 (sb s) (sb r))
        (plus32 (sc s) (sc r)) (plus32 (sd s) (sd r))
        (plus32 (se s) (se r)) (plus32 (sf s) (sf r))
        (plus32 (sg s) (sg r)) (plus32 (sh s) (sh r)).

Fixpoint blocks (count : nat) (s : state) (bs : list Z) : state :=
  match count with
  | O => s
  | S c => blocks c (compress s (take 64 bs)) (drop 64 bs)
  end.

Definition initial_state : state :=
  State (nth 0 H0 0) (nth 1 H0 0) (nth 2 H0 0) (nth 3 H0 0)
        (nth 4 H0 0) (nth 5 H0 0) (nth 6 H0 0) (nth 7 H0 0).

Definition byte_to_Z (b : byte) : Z := Z.of_N (Byte.to_N b).

Definition byte_of_Z (z : Z) : byte :=
  match Byte.of_N (Z.to_N (Z.land z 255)) with
  | Some b => b
  | None => x00
  end.

Definition digest_words (s : state) : list Z :=
  [sa s; sb s; sc s; sd s; se s; sf s; sg s; sh s].

(** [sha256.Sum256]: the 32-byte digest of a byte sequence. *)
Definition Sum256 (data : list byte) : list byte :=
  let padded := pad (map byte_to_Z data) in
  let s := blocks (length padded / 64)%nat initial_state padded in
  map byte_of_Z (flat_map (be_bytes 4) (digest_words s)).

End Sha256.

(* ================================================================= *)
(** ** encoding/hex *)

Module Hex.

Definition digit (n : Z) : ascii :=
  ascii_of_N (Z.to_N (if n <? 10 then 48 + n else 87 + n)).

(** [hex.EncodeToString]: two lower-case digits for each byte. *)
Fixpoint EncodeToString (bs : list byte) : string :=
  match bs with
  | [] => EmptyString
  | b :: rest =>
      let v := Sha256.byte_to_Z b in
      String (digit (v / 16)) (String (digit (v mod 16)) (EncodeToString rest))
  end.

Definition value (c : ascii) : option Z :=
  let n := Z.of_N (N_of_ascii c) in
  if (48 <=? n) && (n <=? 57) then Some (n - 48)
  else if (97 <=? n) && (n <=? 102) then Some (n - 87)
  else if (65 <=? n) && (n <=? 70) then Some (n - 55)
  else None.

(** [hex.DecodeString]: the bytes that a string of hexadecimal digits
    stands for, if it is one of even length. *)
Fixpoint DecodeString (s : string) : option (list byte) :=
  match s with
  | EmptyString => Some []
  | String _ EmptyString => None
  | String high (String low rest) =>
      match value high, value low, DecodeString rest with
      | Some h, Some l, Some bs => Some (Sha256.byte_of_Z (16 * h + l) :: bs)
      | _, _, _ => None
      end
  end.

End Hex.

(* ================================================================= *)
(** ** Go run-time: outcomes of a call, [int], slices *)

(** A call either returns its results or stops in a run-time panic.
    [OutOfFuel] is the cut-off of a modelled [for] loop whose number of
    iterations is not known on entry; it is shown below never to occur. *)
Inductive outcome (A : Type) : Type :=
  | Returns (a : A)
  | Panics (msg : string)
  | OutOfFuel.

Arguments Returns {A} a.
Arguments Panics {A} msg.
Arguments OutOfFuel {A}.

#[global] Instance outcome_ret : MRet outcome := fun A a => Returns a.

#[global] Instance outcome_bind : MBind outcome := fun A B f m =>
  match m with
  | Returns a => f a
  | Panics msg => Panics msg
  | OutOfFuel => OutOfFuel
  end.

(** The [error] interface value: [nil], or [errors.New msg]. *)
Definition error : Type := option string.

Module Int.

(** [int] on the 64-bit ports: two's complement, 64 bits. *)
Definition bits : Z := 64.
Definition min_int : Z := - 2 ^ 63.
Definition max_int : Z := 2 ^ 63 - 1.

Definition wrap (z : Z) : Z := (z + 2 ^ 63) mod 2 ^ 64 - 2 ^ 63.

Definition add (a b : Z) : Z := wrap (a + b).
Definition sub (a b : Z) : Z := wrap (a - b).
Definition mul (a b : Z) : Z := wrap (a * b).

(** [a >> k] on a signed integer is the arithmetic shift; [a | b]. *)
Definition shr (a k : Z) : Z := Z.shiftr a k.
Definition or (a b : Z) : Z := Z.lor a b.

(** [a / b] truncates toward zero and [a % b] has the sign of [a]; both
    panic on a zero divisor. *)
Definition quo (a b : Z) : outcome Z :=
  if b =? 0 then Panics "integer divide by zero"
  else Returns (wrap (Z.quot a b)).

Definition rem (a b : Z) : outcome Z :=
  if b =? 0 then Panics "integer divide by zero"
  else Returns (Z.rem a b).

End Int.

Module Slice.

Definition len {A : Type} (s : list A) : Z := Z.of_nat (length s).

(** [make([]A, n)] with the zero value of [A]. *)
Definition make {A : Type} (zero : A) (n : Z) : outcome (list A) :=
  if n <? 0 then Panics "makeslice: len out of range"
  else Returns (replicate (Z.to_nat n) zero).

(** [s[i]] as an expression. *)
Definition get {A : Type} (s : list A) (i : Z) : outcome A :=
  if (0 <=? i) && (i <? len s) then
    match s !! Z.to_nat i with
    | Some v => Returns v
    | None => Panics "index out of range"
    end
  else Panics "index out of range".

(** [s[i] = v]. *)
Definition set {A : Type} (s : list A) (i : Z) (v : A) : outcome (list A) :=
  if (0 <=? i) && (i <? len s) then Returns (<[Z.to_nat i := v]> s)
  else Panics "index out of range".

(** [copy(dst, src)]: the first [min(len(dst), len(src))] elements. *)
Definition copy {A : Type} (dst src : list A) : list A :=
  take (length dst) src ++ drop (length src) dst.

(** A slice of string or slice headers (16 bytes or more each) lies
    within the 64-bit address space. *)
Definition header_size : Z := 16.

Definition addressable {A : Type} (s : list A) : Prop :=
  len s * header_size < 2 ^ Int.bits.

End Slice.

(* ================================================================= *)
(** ** merkle.go *)

(** [Hashable]: the constraint [~[]byte | ~string].  [dynamic_bytes] is
    the value of [bytes] after the type switch of [hashData]; [zero] is
    the zero value of the type. *)
Class Hashable (T : Type) : Type := {
  dynamic_bytes : T -> list byte;
  zero : T
}.

(** [case []byte: bytes = any(data).([]byte)] *)
#[global] Instance Hashable_bytes : Hashable (list byte) := {
  dynamic_bytes := fun data => data;
  zero := []
}.

(** [case string: bytes = []byte(any(data).(string))] *)
#[global] Instance Hashable_string : Hashable string := {
  dynamic_bytes := fun data => list_byte_of_string data;
  zero := EmptyString
}.

(** A defined type whose underlying type is [[]byte] or [string]: its
    dynamic type matches neither case of the switch, which has no
    default, so [bytes] stays [nil]. *)
Record Defined (U : Type) : Type := MkDefined { underlying : U }.

Arguments MkDefined {U} underlying.
Arguments underlying {U} d.

#[global] Instance Hashable_defined {U : Type} `{Hashable U} : Hashable (Defined U) := {
  dynamic_bytes := fun _ => [];
  zero := MkDefined zero
}.

(** [Tree[T]] *)
Record Tree (T : Type) : Type := MkTree {
  Nodes : list string;
  LeafData : list T;
  LeafOffset : Z;
  LeafCount : Z
}.

Arguments MkTree {T} Nodes LeafData LeafOffset LeafCount.
Arguments Nodes {T} t.
Arguments LeafData {T} t.
Arguments LeafOffset {T} t.
Arguments LeafCount {T} t.

Definition hashData {T : Type} `{Hashable T} (data : T) : string :=
  let bytes := dynamic_bytes data in
  let hash := Sha256.Sum256 bytes in
  Hex.EncodeToString hash.

Definition hashNodes (left right : string) : string :=
  let combined := (left ++ right)%string in
  let hash := Sha256.Sum256 (list_byte_of_string combined) in
  Hex.EncodeToString hash.

Definition nextPowerOfTwo (n : Z) : Z :=
  if n <=? 0 then 1
  else
    let n := Int.sub n 1 in
    let n := Int.or n (Int.shr n 1) in
    let n := Int.or n (Int.shr n 2) in
    let n := Int.or n (Int.shr n 4) in
    let n := Int.or n (Int.shr n 8) in
    let n := Int.or n (Int.shr n 16) in
    Int.add n 1.

Section NewTree.

Context {T : Type} `{Hashable T}.

(** [for i := 0; i < paddedLeafCount; i++]: [trips] iterations are left
    and the next one is at [i]. *)
Fixpoint hashLeaves (data : list T) (leafOffset leafCount : Z)
    (trips : nat) (i : Z) (nodes : list string) : outcome (list string) :=
  match trips with
  | O => Returns nodes
  | S more =>
      nodes' ←
        (if i <? leafCount then
           item ← Slice.get data i;
           Slice.set nodes (Int.add leafOffset i) (hashData item)
         else
           last ← Slice.get nodes (Int.sub (Int.add leafOffset leafCount) 1);
           Slice.set nodes (Int.add leafOffset i) last);
      hashLeaves data leafOffset leafCount more (Int.add i 1) nodes'
  end.

(** [for i := leafOffset - 1; i >= 0; i--]: [trips] iterations are left
    and the next one is at [i]. *)
Fixpoint buildLevels (trips : nat) (i : Z) (nodes : list string)
    : outcome (list string) :=
  match trips with
  | O => Returns nodes
  | S more =>
      let left := Int.add (Int.mul 2 i) 1 in
      let right := Int.add (Int.mul 2 i) 2 in
      l ← Slice.get nodes left;
      r ← Slice.get nodes right;
      nodes' ← Slice.set nodes i (hashNodes l r);
      buildLevels more (Int.sub i 1) nodes'
  end.

Definition NewTree (data : list T) : outcome (option (Tree T) * error) :=
  if Slice.len data =? 0 then
    Returns (None, Some "cannot create tree with empty data"%string)
  else
    let leafCount := Slice.len data in
    let paddedLeafCount := nextPowerOfTwo leafCount in
    let totalNodes := Int.sub (Int.mul paddedLeafCount 2) 1 in
    let leafOffset := Int.sub paddedLeafCount 1 in
    nodes ← Slice.make EmptyString totalNodes;
    leafData ← Slice.make zero leafCount;
    let leafData := Slice.copy leafData data in
    nodes ← hashLeaves data leafOffset leafCount
              (Z.to_nat paddedLeafCount) 0 nodes;
    nodes ← buildLevels (Z.to_nat leafOffset) (Int.sub leafOffset 1) nodes;
    Returns (Some (MkTree nodes leafData leafOffset leafCount), None).

Definition GetRoot (t : Tree T) : string :=
  if Slice.len (Nodes t) =? 0 then EmptyString
  else nth 0 (Nodes t) EmptyString.

(** [for currentIndex > 0 { ... }] *)
Fixpoint climb (fuel : nat) (nodes : list string) (currentIndex : Z)
    (proof : list string) : outcome (list string) :=
  if currentIndex >? 0 then
    match fuel with
    | O => OutOfFuel
    | S fuel' =>
        parity ← Int.rem currentIndex 2;
        let siblingIndex :=
          if parity =? 1 then Int.add currentIndex 1
          else Int.sub currentIndex 1 in
        sibling ← Slice.get nodes siblingIndex;
        let proof := proof ++ [sibling] in
        parent ← Int.quo (Int.sub currentIndex 1) 2;
        climb fuel' nodes parent proof
    end
  else Returns proof.

Definition GetProof (t : Tree T) (index : Z) : outcome (list string * error) :=
  if (index <? 0) || (index >=? LeafCount t) then
    Returns ([], Some "index out of range"%string)
  else
    let currentIndex := Int.add (LeafOffset t) index in
    proof ← climb (Z.to_nat currentIndex) (Nodes t) currentIndex [];
    Returns (proof, None).

(** [for _, siblingHash := range proof { ... }] *)
Fixpoint fold_proof (proof : list string) (hash : string) (index : Z)
    : outcome string :=
  match proof with
  | [] => Returns hash
  | siblingHash :: rest =>
      parity ← Int.rem index 2;
      let hash :=
        if parity =? 0 then hashNodes hash siblingHash
        else hashNodes siblingHash hash in
      index ← Int.quo index 2;
      fold_proof rest hash index
  end.

Definition VerifyProof (data : T) (proof : list string) (rootHash : string)
    (index : Z) : outcome bool :=
  hash ← fold_proof proof (hashData data) index;
  Returns (String.eqb hash rootHash).

End NewTree.

(* ================================================================= *)
(** ** merkle.go: printing *)

(** [s[:n]] on a string. *)
Definition string_upto (s : string) (n : Z) : outcome string :=
  if (0 <=? n) && (n <=? Z.of_nat (String.length s)) then
    Returns (substring 0 (Z.to_nat n) s)
  else Panics "slice bounds out of range".

Section Print.

Context {T : Type}.

(** Standard output is the list of the lines written so far; a call of
    [fmt.Printf] with a format ending in a newline, or of [fmt.Println],
    adds one line. *)
Fixpoint printNode (fuel : nat) (t : Tree T) (index : Z) (prefix : string)
    (isTail : bool) (stdout : list string) : outcome (list string) :=
  if index >=? Slice.len (Nodes t) then Returns stdout
  else
    match fuel with
    | O => OutOfFuel
    | S fuel' =>
        let connector :=
          if negb isTail then "├── "%string else "└── "%string in
        node ← Slice.get (Nodes t) index;
        head ← string_upto node 8;
        let stdout :=
          stdout ++ [(prefix ++ connector ++ (head ++ "..."))%string] in
        let leftChild := Int.add (Int.mul 2 index) 1 in
        let rightChild := Int.add (Int.mul 2 index) 2 in
        if (leftChild <? Slice.len (Nodes t))
           || (rightChild <? Slice.len (Nodes t)) then
          let extension :=
            if negb isTail then "│   "%string else "    "%string in
          stdout ←
            (if rightChild <? Slice.len (Nodes t) then
               printNode fuel' t rightChild (prefix ++ extension)%string
                         false stdout
             else Returns stdout);
          if leftChild <? Slice.len (Nodes t) then
            printNode fuel' t leftChild (prefix ++ extension)%string
                      true stdout
          else Returns stdout
        else Returns stdout
    end.

Definition Print (t : Tree T) (stdout : list string) : outcome (list string) :=
  if Slice.len (Nodes t) =? 0 then Returns (stdout ++ ["Empty tree"%string])
  else printNode (length (Nodes t)) t 0 EmptyString true stdout.

End Print.

(* ================================================================= *)
(** ** Vocabulary of the properties *)

(** The element of a slice at an [int] position, if there is one. *)
Definition look {A : Type} (s : list A) (i : Z) : option A := s !! Z.to_nat i.

(** The bit-smearing part of [nextPowerOfTwo]. *)
Definition smear (x : Z) : Z :=
  let x := Int.or x (Int.shr x 1) in
  let x := Int.or x (Int.shr x 2) in
  let x := Int.or x (Int.shr x 4) in
  let x := Int.or x (Int.shr x 8) in
  Int.or x (Int.shr x 16).

(** [filled x m w]: no bit of [x] above [m] is set, and the [w] bits from
    [m] down (as far as bit 0) are. *)
Definition filled (x m w : Z) : Prop :=
  (forall i, m < i -> Z.testbit x i = false) /\
  (forall i, 0 <= i -> m - w < i <= m -> Z.testbit x i = true).

(** The exponent of the smallest power of two that is at least [n]. *)
Definition levels (n : Z) : Z :=
  if n <=? 1 then 0 else Z.log2 (n - 1) + 1.

Definition is_power_of_two (p : Z) : Prop := exists k, 0 <= k /\ p = 2 ^ k.

Section Shape.

Context {T : Type} `{Hashable T}.

(** The digest that leaf slot [j] is given: that of item [j], and past
    the last item that of the last item. *)
Definition leaf_digest (data : list T) (j : Z) : option string :=
  hashData <$> look data (if j <? Slice.len data then j else Slice.len data - 1).

(** Leaf slots [0 .. k-1] of [nodes] are filled in. *)
Definition leaves_upto (data : list T) (leafOffset k : Z)
    (nodes : list string) : Prop :=
  forall j, 0 <= j < k -> look nodes (leafOffset + j) = leaf_digest data j.

(** The node at [i] is the hash of its two children. *)
Definition hashes_children (nodes : list string) (i : Z) : Prop :=
  exists l r,
    look nodes (2 * i + 1) = Some l /\
    look nodes (2 * i + 2) = Some r /\
    look nodes i = Some (hashNodes l r).

(** Every node from [k] up to the first leaf is the hash of its children. *)
Definition inner_from (leafOffset k : Z) (nodes : list string) : Prop :=
  forall i, k <= i < leafOffset -> hashes_children nodes i.

(** What construction establishes, with [padded] the padded leaf count. *)
Record built (data : list T) (padded : Z) (t : Tree T) : Prop := {
  built_count : LeafCount t = Slice.len data;
  built_offset : LeafOffset t = padded - 1;
  built_data : LeafData t = data;
  built_len : Slice.len (Nodes t) = 2 * padded - 1;
  built_leaves : leaves_upto data (padded - 1) padded (Nodes t);
  built_inner : inner_from (padded - 1) 0 (Nodes t)
}.

End Shape.

(** The positions that the loop of [GetProof] goes through from
    [currentIndex]: the sibling index read in each iteration and the index
    at which the loop ends.  [None] when [fuel] iterations are not enough. *)
Fixpoint route (fuel : nat) (currentIndex : Z) : option (list Z * Z) :=
  if currentIndex >? 0 then
    match fuel with
    | O => None
    | S fuel' =>
        let siblingIndex :=
          if Z.rem currentIndex 2 =? 1 then Int.add currentIndex 1
          else Int.sub currentIndex 1 in
        match route fuel' (Int.wrap (Z.quot (Int.sub currentIndex 1) 2)) with
        | Some (siblings, final) => Some (siblingIndex :: siblings, final)
        | None => None
        end
    end
  else Some ([], currentIndex).

(** The digest that the loop of [VerifyProof] ends with. *)
Fixpoint recombine (proof : list string) (hash : string) (index : Z) : string :=
  match proof with
  | [] => hash
  | siblingHash :: rest =>
      recombine rest
        (if Z.rem index 2 =? 0 then hashNodes hash siblingHash
         else hashNodes siblingHash hash)
        (Int.wrap (Z.quot index 2))
  end.

(** Digests in a tree whose leaves all hold [a], except for one leaf [b]
    that sits one level above the others, as the last node of its level:
    after [k] levels, the digest of a subtree with leaves [a] only, and
    the digest of the subtree that has [b] as its last leaf. *)
Fixpoint lopsided (a b : string) (k : nat) : string * string :=
  match k with
  | O => (a, b)
  | S j =>
      let '(a, b) := lopsided a b j in
      let a' := hashNodes a a in
      (a', hashNodes a' b)
  end.

(** The digests of the subtrees with leaves [a] only, over [count] levels
    from the one above [a]. *)
Fixpoint spine (a : string) (count : nat) : list string :=
  match count with
  | O => []
  | S c => let a' := hashNodes a a in a' :: spine a' c
  end.

(** A slice of 4294967297 strings: ["b", "a", "a", ..., "a"]. *)
Definition beyond : list string :=
  "b"%string :: replicate (Z.to_nat (2 ^ 32)) "a"%string.

(** The hashing of two children as the specification words it: the hash
    of the two raw 32-byte digests, one after the other. *)
Definition spec_hashNodes (left right : string) : option string :=
  match Hex.DecodeString left, Hex.DecodeString right with
  | Some l, Some r => Some (Hex.EncodeToString (Sha256.Sum256 (l ++ r)))
  | _, _ => None
  end.

(* ================================================================= *)
(** ** Vocabulary of the further properties *)

(** A lower-case hexadecimal digit. *)
Definition lower_hex_digit (c : ascii) : bool :=
  let n := Z.of_N (N_of_ascii c) in
  ((48 <=? n) && (n <=? 57)) || ((97 <=? n) && (n <=? 102)).

(** A digest as the program stores it: 64 lower-case hexadecimal digits. *)
Definition hex_digest (s : string) : Prop :=
  String.length s = 64%nat /\
  Forall (fun c => lower_hex_digit c = true) (list_ascii_of_string s).

(** One level of a hash tree from the level below it: the hashes of the
    pairs of neighbours. *)
Fixpoint pair_up (level : list string) : list string :=
  match level with
  | l :: r :: rest => hashNodes l r :: pair_up rest
  | _ => []
  end.

(** The leaf level of the tree over [data] with [padded] leaf slots: the
    digests of the items, then the digest of the last item again up to
    [padded] slots. *)
Definition padded_leaves {T : Type} `{Hashable T} (data : list T) (padded : Z)
    : list string :=
  map hashData data ++
  match last data with
  | Some item => replicate (Z.to_nat padded - length data) (hashData item)
  | None => []
  end.

(** The nodes of [nodes] at positions [from .. from + count - 1]. *)
Definition segment (nodes : list string) (from count : Z) : list string :=
  take (Z.to_nat count) (drop (Z.to_nat from) nodes).

(** [descends i j]: node [j] of the flat array is node [i] or lies in the
    subtree below it. *)
Inductive descends (i : Z) : Z -> Prop :=
  | descends_self : descends i i
  | descends_left (j : Z) : descends i j -> descends i (2 * j + 1)
  | descends_right (j : Z) : descends i j -> descends i (2 * j + 2).

(** The nodes of an array of [n] nodes from [index] down, in the order in
    which [printNode] prints them: the node, what is below its right
    child, what is below its left child. *)
Fixpoint print_order (fuel : nat) (n index : Z) : list Z :=
  if index >=? n then []
  else
    match fuel with
    | O => []
    | S fuel' =>
        index :: print_order fuel' n (2 * index + 2)
              ++ print_order fuel' n (2 * index + 1)
    end.

(** A printed line for the node at [index]: some indentation, one of the
    two connectors, the first eight characters of the node, and three
    dots. *)
Definition line_of (nodes : list string) (index : Z) (line : string) : Prop :=
  exists indent connector node,
    (connector = "├── "%string \/ connector = "└── "%string) /\
    look nodes index = Some node /\
    line = (indent ++ connector ++ (substring 0 8 node ++ "..."))%string.

(* ================================================================= *)
(** ** Integers *)

Lemma wrap_small (z : Z) : Int.min_int <= z <= Int.max_int -> Int.wrap z = z.
Proof.
  unfold Int.wrap, Int.min_int, Int.max_int. intros Hz.
  rewrite Z.mod_small; lia.
Qed.

Lemma testbit_lor_shiftr (x w i : Z) :
  0 <= i ->
  Z.testbit (Int.or x (Int.shr x w)) i = Z.testbit x i || Z.testbit x (i + w).
Proof.
  intros Hi. unfold Int.or, Int.shr.
  now rewrite Z.lor_spec, Z.shiftr_spec.
Qed.

Lemma lor_lower_bound (x y : Z) : 0 <= y -> x <= Z.lor x y.
Proof.
  intros Hy.
  assert (Hsplit : Z.lor x y = x + Z.ldiff y x).
  { rewrite Z.add_nocarry_lxor.
    - apply Z.bits_inj'. intros i Hi.
      rewrite Z.lor_spec, Z.lxor_spec, Z.ldiff_spec.
      destruct (Z.testbit x i), (Z.testbit y i); reflexivity.
    - apply Z.bits_inj'. intros i Hi.
      rewrite Z.land_spec, Z.ldiff_spec, Z.bits_0.
      destruct (Z.testbit x i), (Z.testbit y i); reflexivity. }
  assert (0 <= Z.ldiff y x) by (apply Z.ldiff_nonneg; lia).
  lia.
Qed.

(** One [n |= n >> w] step keeps the value non-negative, does not lower
    it and does not raise its highest set bit. *)
Lemma or_shr_bounds (x w : Z) :
  0 <= x -> 0 <= w ->
  let y := Int.or x (Int.shr x w) in
  x <= y /\ Z.log2 y = Z.log2 x.
Proof.
  intros Hx Hw y. subst y. unfold Int.or, Int.shr.
  assert (Hs : 0 <= Z.shiftr x w) by now apply Z.shiftr_nonneg.
  split.
  - now apply lor_lower_bound.
  - rewrite Z.log2_lor by assumption.
    destruct (Z.eq_dec x 0) as [-> | Hne].
    + now rewrite Z.shiftr_0_l.
    + rewrite Z.log2_shiftr by lia.
      pose proof (Z.log2_nonneg x). lia.
Qed.

Lemma nextPowerOfTwo_smear (n : Z) :
  0 < n -> nextPowerOfTwo n = Int.add (smear (Int.sub n 1)) 1.
Proof.
  intros Hn. unfold nextPowerOfTwo.
  destruct (Z.leb_spec n 0); [lia | reflexivity].
Qed.

Lemma smear_bounds (x : Z) :
  0 <= x -> x <= smear x /\ Z.log2 (smear x) = Z.log2 x.
Proof.
  intros Hx. unfold smear.
  destruct (or_shr_bounds x 1) as [A1 B1]; [lia .. |].
  destruct (or_shr_bounds (Int.or x (Int.shr x 1)) 2) as [A2 B2]; [lia .. |].
  destruct (or_shr_bounds
              (Int.or (Int.or x (Int.shr x 1))
                      (Int.shr (Int.or x (Int.shr x 1)) 2)) 4)
    as [A3 B3]; [lia .. |].
  cbv zeta.
  set (x1 := Int.or x (Int.shr x 1)) in *.
  set (x2 := Int.or x1 (Int.shr x1 2)) in *.
  set (x3 := Int.or x2 (Int.shr x2 4)) in *.
  destruct (or_shr_bounds x3 8) as [A4 B4]; [lia .. |].
  set (x4 := Int.or x3 (Int.shr x3 8)) in *.
  destruct (or_shr_bounds x4 16) as [A5 B5]; [lia .. |].
  split; [lia | congruence].
Qed.

Lemma filled_log2 (x : Z) : 0 < x -> filled x (Z.log2 x) 1.
Proof.
  intros Hx. split.
  - intros i Hi. apply Z.bits_above_log2; lia.
  - intros i Hi Hr. replace i with (Z.log2 x) by lia. now apply Z.bit_log2.
Qed.

Lemma filled_or_shr (x m w : Z) :
  0 < w -> filled x m w -> filled (Int.or x (Int.shr x w)) m (2 * w).
Proof.
  intros Hw [Hhigh Hrun]. split.
  - intros i Hi.
    destruct (Z.lt_ge_cases i 0) as [Hneg | Hpos].
    + now apply Z.testbit_neg_r.
    + rewrite testbit_lor_shiftr by assumption.
      rewrite !Hhigh by lia. reflexivity.
  - intros i Hi Hr. rewrite testbit_lor_shiftr by assumption.
    destruct (Z.lt_ge_cases (m - w) i) as [Hnear | Hfar].
    + rewrite (Hrun i) by lia. reflexivity.
    + rewrite (Hrun (i + w)) by lia. apply orb_true_r.
Qed.

Lemma filled_ones (x m w : Z) :
  0 <= m < w -> filled x m w -> x = Z.ones (m + 1).
Proof.
  intros Hm [Hhigh Hrun]. apply Z.bits_inj'. intros i Hi.
  rewrite Z.testbit_ones_nonneg by lia.
  destruct (Z.ltb_spec i (m + 1)).
  - apply Hrun; lia.
  - apply Hhigh; lia.
Qed.

(** Below [2^32] the smearing sets every bit under the highest one. *)
Lemma smear_ones (x : Z) :
  0 < x < 2 ^ 32 -> smear x = 2 ^ (Z.log2 x + 1) - 1.
Proof.
  intros Hx.
  assert (Hm : 0 <= Z.log2 x < 32).
  { split; [apply Z.log2_nonneg | apply Z.log2_lt_pow2; lia]. }
  pose proof (filled_log2 x ltac:(lia)) as F.
  apply (filled_or_shr _ _ 1) in F; [| lia].
  apply (filled_or_shr _ _ 2) in F; [| lia].
  apply (filled_or_shr _ _ 4) in F; [| lia].
  apply (filled_or_shr _ _ 8) in F; [| lia].
  apply (filled_or_shr _ _ 16) in F; [| lia].
  apply filled_ones in F; [| lia].
  unfold smear. cbv zeta. rewrite F.
  rewrite Z.ones_equiv. lia.
Qed.

Lemma levels_nonneg (n : Z) : 0 <= levels n.
Proof.
  unfold levels. destruct (Z.leb_spec n 1); [lia |].
  pose proof (Z.log2_nonneg (n - 1)). lia.
Qed.

Lemma levels_least (n : Z) :
  1 <= n -> n <= 2 ^ levels n /\ (forall k, 0 <= k -> n <= 2 ^ k -> levels n <= k).
Proof.
  intros Hn. unfold levels. destruct (Z.leb_spec n 1).
  - split; [simpl; lia | intros; lia].
  - destruct (Z.log2_spec (n - 1)) as [Hlo Hhi]; [lia |].
    split.
    + replace (Z.log2 (n - 1) + 1) with (Z.succ (Z.log2 (n - 1))) by lia. lia.
    + intros k Hk Hle.
      assert (Z.log2 (n - 1) < k); [| lia].
      apply Z.log2_lt_pow2; lia.
Qed.

Lemma nextPowerOfTwo_pow2 (n : Z) :
  1 <= n <= 2 ^ 32 -> nextPowerOfTwo n = 2 ^ levels n.
Proof.
  intros Hn. rewrite nextPowerOfTwo_smear by lia.
  unfold Int.sub, Int.add. rewrite (wrap_small (n - 1)).
  2:{ unfold Int.min_int, Int.max_int. lia. }
  unfold levels. destruct (Z.leb_spec n 1).
  - replace (n - 1) with 0 by lia. reflexivity.
  - rewrite smear_ones by lia.
    assert (Hm : 0 <= Z.log2 (n - 1) < 32).
    { split; [apply Z.log2_nonneg | apply Z.log2_lt_pow2; lia]. }
    assert (2 ^ (Z.log2 (n - 1) + 1) <= 2 ^ 32) by (apply Z.pow_le_mono_r; lia).
    rewrite wrap_small; [lia |].
    unfold Int.min_int, Int.max_int. lia.
Qed.

(** Whatever the length of an addressable slice, the padded count is at
    least the length and stays far from the overflow of [int]. *)
Lemma nextPowerOfTwo_bounds (n : Z) :
  1 <= n < 2 ^ 60 -> n <= nextPowerOfTwo n <= 2 ^ 60.
Proof.
  intros Hn. rewrite nextPowerOfTwo_smear by lia.
  unfold Int.sub, Int.add. rewrite (wrap_small (n - 1)).
  2:{ unfold Int.min_int, Int.max_int. lia. }
  destruct (smear_bounds (n - 1)) as [Hge Hlog]; [lia |].
  assert (Hlt : smear (n - 1) < 2 ^ 60).
  { destruct (Z.eq_dec (smear (n - 1)) 0) as [-> | Hne]; [lia |].
    apply Z.log2_lt_pow2; [lia |]. rewrite Hlog.
    destruct (Z.eq_dec (n - 1) 0) as [-> | Hne']; [simpl; lia |].
    apply Z.log2_lt_pow2; lia. }
  rewrite wrap_small; [lia |].
  unfold Int.min_int, Int.max_int. lia.
Qed.

(* ================================================================= *)
(** ** Slices *)

Lemma look_insert {A : Type} (s : list A) (i j : Z) (v : A) :
  0 <= i < Slice.len s -> 0 <= j ->
  look (<[Z.to_nat i := v]> s) j = if j =? i then Some v else look s j.
Proof.
  unfold look, Slice.len. intros Hi Hj.
  destruct (Z.eqb_spec j i) as [-> | Hne].
  - apply list_lookup_insert_eq. lia.
  - apply list_lookup_insert_ne. lia.
Qed.

Lemma look_in_range {A : Type} (s : list A) (i : Z) :
  0 <= i < Slice.len s -> exists v, look s i = Some v.
Proof.
  unfold look, Slice.len. intros Hi.
  destruct (lookup_lt_is_Some_2 s (Z.to_nat i)) as [v Hv]; [lia |].
  now exists v.
Qed.

Lemma look_Some_range {A : Type} (s : list A) (i : Z) (v : A) :
  0 <= i -> look s i = Some v -> i < Slice.len s.
Proof.
  unfold look, Slice.len. intros Hi Hv.
  apply lookup_lt_Some in Hv. lia.
Qed.

Lemma get_look {A : Type} (s : list A) (i : Z) (v : A) :
  0 <= i -> look s i = Some v -> Slice.get s i = Returns v.
Proof.
  intros Hi Hv. pose proof (look_Some_range s i v Hi Hv) as Hlt.
  unfold Slice.get. unfold look in Hv. rewrite Hv.
  destruct (Z.leb_spec 0 i); [| lia].
  destruct (Z.ltb_spec i (Slice.len s)); [reflexivity | lia].
Qed.

Lemma get_Returns {A : Type} (s : list A) (i : Z) (v : A) :
  Slice.get s i = Returns v -> 0 <= i < Slice.len s /\ look s i = Some v.
Proof.
  unfold Slice.get, look.
  destruct (Z.leb_spec 0 i); [| discriminate].
  destruct (Z.ltb_spec i (Slice.len s)); [| discriminate].
  simpl. destruct (s !! Z.to_nat i); [| discriminate].
  intros [= ->]. split; [lia | reflexivity].
Qed.

Lemma set_in_range {A : Type} (s : list A) (i : Z) (v : A) :
  0 <= i < Slice.len s -> Slice.set s i v = Returns (<[Z.to_nat i := v]> s).
Proof.
  intros Hi. unfold Slice.set.
  destruct (Z.leb_spec 0 i); [| lia].
  destruct (Z.ltb_spec i (Slice.len s)); [reflexivity | lia].
Qed.

Lemma len_insert {A : Type} (s : list A) (i : nat) (v : A) :
  Slice.len (<[i := v]> s) = Slice.len s.
Proof. unfold Slice.len. now rewrite length_insert. Qed.

Lemma copy_make {A : Type} (z : A) (src : list A) :
  Slice.copy (replicate (Z.to_nat (Slice.len src)) z) src = src.
Proof.
  unfold Slice.copy, Slice.len. rewrite length_replicate, Nat2Z.id.
  rewrite firstn_all. rewrite drop_ge by (rewrite length_replicate; lia).
  apply app_nil_r.
Qed.

(* ================================================================= *)
(** ** Construction *)

(** Drops the wrap-around of the [int] operations whose result is in range. *)
Ltac int_range := unfold Int.min_int, Int.max_int in *; lia.

Ltac unwrap :=
  unfold Int.add, Int.sub, Int.mul;
  repeat match goal with
         | |- context [Int.wrap ?z] => rewrite (wrap_small z) by int_range
         end.

Section Construction.

Context {T : Type} `{Hashable T}.
Variables (data : list T) (P : Z).
Hypothesis count_le_padded : 1 <= Slice.len data <= P.
Hypothesis padded_small : P <= 2 ^ 60.

Lemma leaf_digest_item (j : Z) (item : T) :
  0 <= j < Slice.len data -> look data j = Some item ->
  leaf_digest data j = Some (hashData item).
Proof.
  intros Hj Hitem. unfold leaf_digest.
  destruct (Z.ltb_spec j (Slice.len data)); [| lia].
  now rewrite Hitem.
Qed.

Lemma leaf_digest_padding (j : Z) :
  Slice.len data <= j ->
  leaf_digest data j = leaf_digest data (Slice.len data - 1).
Proof.
  intros Hj. unfold leaf_digest.
  destruct (Z.ltb_spec j (Slice.len data)); [lia |].
  destruct (Z.ltb_spec (Slice.len data - 1) (Slice.len data)); [reflexivity | lia].
Qed.

Lemma leaf_digest_defined (j : Z) :
  0 <= j -> exists d, leaf_digest data j = Some d.
Proof.
  intros Hj. unfold leaf_digest.
  destruct (Z.ltb_spec j (Slice.len data)).
  - destruct (look_in_range data j) as [item ->]; [lia |]. now eexists.
  - destruct (look_in_range data (Slice.len data - 1)) as [item ->]; [lia |].
    now eexists.
Qed.

(** The first loop of [NewTree], from any iteration on. *)
Lemma hashLeaves_fills (trips : nat) :
  forall (i : Z) (nodes : list string),
    Z.of_nat trips = P - i -> 0 <= i ->
    Slice.len nodes = 2 * P - 1 ->
    leaves_upto data (P - 1) i nodes ->
    exists nodes',
      hashLeaves data (P - 1) (Slice.len data) trips i nodes = Returns nodes' /\
      Slice.len nodes' = 2 * P - 1 /\
      leaves_upto data (P - 1) P nodes'.
Proof.
  induction trips as [| more IH]; intros i nodes Htrips Hi Hlen Hdone.
  - exists nodes. simpl. repeat split; [assumption |].
    intros j Hj. apply Hdone. lia.
  - assert (Hslot : 0 <= P - 1 + i < Slice.len nodes) by lia.
    assert (Hstep : forall d, leaf_digest data i = Some d ->
              leaves_upto data (P - 1) (i + 1) (<[Z.to_nat (P - 1 + i) := d]> nodes)).
    { intros d Hd j Hj. rewrite look_insert by lia.
      destruct (Z.eqb_spec (P - 1 + j) (P - 1 + i)) as [Heq | Hne].
      - replace j with i by lia. now rewrite Hd.
      - apply Hdone. lia. }
    cbn [hashLeaves].
    destruct (Z.ltb_spec i (Slice.len data)) as [Hreal | Hpad].
    + destruct (look_in_range data i) as [item Hitem]; [lia |].
      rewrite (get_look data i item) by (lia || assumption).
      cbn [mbind outcome_bind]. unwrap.
      rewrite set_in_range by assumption. cbn [mbind outcome_bind].
      apply IH; [lia | lia | now rewrite len_insert |].
      apply Hstep. apply leaf_digest_item; [lia | assumption].
    + destruct (leaf_digest_defined (Slice.len data - 1)) as [d Hd]; [lia |].
      assert (Hlast : look nodes (P - 1 + Slice.len data - 1) = Some d).
      { replace (P - 1 + Slice.len data - 1) with (P - 1 + (Slice.len data - 1)) by lia.
        rewrite <- Hd. apply Hdone. lia. }
      unwrap. rewrite (get_look nodes (P - 1 + Slice.len data - 1) d) by (lia || assumption).
      cbn [mbind outcome_bind].
      rewrite set_in_range by assumption. cbn [mbind outcome_bind].
      apply IH; [lia | lia | now rewrite len_insert |].
      apply Hstep. now rewrite leaf_digest_padding.
Qed.

(** The second loop of [NewTree], from any iteration on. *)
Lemma buildLevels_builds (trips : nat) :
  forall (i : Z) (nodes : list string),
    Z.of_nat trips = i + 1 -> i < P - 1 ->
    Slice.len nodes = 2 * P - 1 ->
    leaves_upto data (P - 1) P nodes ->
    inner_from (P - 1) (i + 1) nodes ->
    exists nodes',
      buildLevels trips i nodes = Returns nodes' /\
      Slice.len nodes' = 2 * P - 1 /\
      leaves_upto data (P - 1) P nodes' /\
      inner_from (P - 1) 0 nodes'.
Proof.
  induction trips as [| more IH]; intros i nodes Htrips Hi Hlen Hleaves Hinner.
  - exists nodes. simpl. repeat split; [assumption .. |].
    intros j Hj. apply Hinner. lia.
  - assert (Hi0 : 0 <= i) by lia.
    destruct (look_in_range nodes (2 * i + 1)) as [l Hl]; [lia |].
    destruct (look_in_range nodes (2 * i + 2)) as [r Hr]; [lia |].
    cbn [buildLevels]. unwrap.
    rewrite (get_look nodes (2 * i + 1) l) by (lia || assumption).
    cbn [mbind outcome_bind].
    rewrite (get_look nodes (2 * i + 2) r) by (lia || assumption).
    cbn [mbind outcome_bind].
    rewrite set_in_range by lia. cbn [mbind outcome_bind].
    apply IH; [lia | lia | now rewrite len_insert | |].
    + intros j Hj. rewrite look_insert by lia.
      destruct (Z.eqb_spec (P - 1 + j) i); [lia |]. now apply Hleaves.
    + intros j Hj. unfold hashes_children.
      rewrite !look_insert by lia.
      destruct (Z.eqb_spec (2 * j + 1) i); [lia |].
      destruct (Z.eqb_spec (2 * j + 2) i); [lia |].
      destruct (Z.eqb_spec j i) as [-> | Hne].
      * now exists l, r.
      * apply Hinner. lia.
Qed.

End Construction.

Section Built.

Context {T : Type} `{Hashable T}.

Lemma len_nonempty (data : list T) : data <> [] -> 1 <= Slice.len data.
Proof.
  unfold Slice.len. destruct data; [congruence | simpl; lia].
Qed.

Lemma addressable_bound (data : list T) :
  Slice.addressable data -> Slice.len data < 2 ^ 60.
Proof.
  unfold Slice.addressable, Slice.header_size, Int.bits. lia.
Qed.

(** [NewTree] on a non-empty slice returns a tree, and the tree has the
    layout that the rest of the package relies on. *)
Theorem NewTree_built (data : list T) :
  data <> [] -> Slice.addressable data ->
  exists t,
    NewTree data = Returns (Some t, None) /\
    built data (nextPowerOfTwo (Slice.len data)) t.
Proof.
  intros Hne Haddr.
  pose proof (len_nonempty data Hne) as Hn.
  pose proof (addressable_bound data Haddr) as Hlt.
  pose proof (nextPowerOfTwo_bounds (Slice.len data) ltac:(lia)) as HP.
  set (P := nextPowerOfTwo (Slice.len data)) in *.
  unfold NewTree. fold P.
  destruct (Z.eqb_spec (Slice.len data) 0); [lia |].
  unwrap. unfold Slice.make.
  destruct (Z.ltb_spec (P * 2 - 1) 0); [lia |].
  destruct (Z.ltb_spec (Slice.len data) 0); [lia |].
  cbn [mbind outcome_bind]. rewrite copy_make.
  destruct (hashLeaves_fills data P ltac:(lia) ltac:(lia) (Z.to_nat P) 0
              (replicate (Z.to_nat (P * 2 - 1)) EmptyString))
    as (leaves & -> & Hlen1 & Hleaves1).
  { lia. }
  { lia. }
  { unfold Slice.len. rewrite length_replicate. lia. }
  { intros j Hj. lia. }
  cbn [mbind outcome_bind].
  destruct (buildLevels_builds data P ltac:(lia) ltac:(lia) (Z.to_nat (P - 1))
              (P - 1 - 1) leaves)
    as (nodes & -> & Hlen2 & Hleaves2 & Hinner2).
  { lia. }
  { lia. }
  { assumption. }
  { assumption. }
  { intros j Hj. lia. }
  cbn [mbind outcome_bind].
  eexists. split; [reflexivity |].
  constructor; simpl; auto.
Qed.

End Built.

(* ================================================================= *)
(** ** Proof generation and verification *)

Lemma rem_two (c : Z) : Int.rem c 2 = Returns (Z.rem c 2).
Proof. reflexivity. Qed.

Lemma quo_two (c : Z) :
  0 <= c <= Int.max_int -> Int.quo c 2 = Returns (c / 2).
Proof.
  intros Hc. unfold Int.quo. simpl (2 =? 0).
  rewrite Z.quot_div_nonneg by lia.
  rewrite wrap_small; [reflexivity |].
  unfold Int.min_int, Int.max_int in *. Z.div_mod_to_equations. lia.
Qed.

Lemma rem_two_nonneg (c : Z) : 0 <= c -> Z.rem c 2 = c mod 2.
Proof. intros Hc. apply Z.rem_mod_nonneg; lia. Qed.

(** Linear arithmetic with division and remainder by constants. *)
Ltac divs := Z.div_mod_to_equations; lia.

Section Climb.

Variables (nodes : list string) (P : Z).
Hypothesis padded_range : 1 <= P <= 2 ^ 60.
Hypothesis nodes_len : Slice.len nodes = 2 * P - 1.

(** The walk from any node of the array reaches the root, and every
    sibling on the way is a node of the array. *)
Lemma route_in_bounds (fuel : nat) :
  forall c : Z,
    0 <= c < 2 * P - 1 -> (Z.to_nat c <= fuel)%nat ->
    exists siblings,
      route fuel c = Some (siblings, 0) /\
      Forall (fun s => 0 <= s < 2 * P - 1) siblings.
Proof.
  induction fuel as [| fuel IH]; intros c Hc Hfuel.
  - assert (c = 0) as -> by lia. exists []. split; [reflexivity | constructor].
  - cbn [route]. destruct (Z.gtb_spec c 0) as [Hpos | Hzero].
    + unwrap. rewrite Z.quot_div_nonneg by lia.
      rewrite wrap_small by (unfold Int.min_int, Int.max_int in *; divs).
      destruct (IH ((c - 1) / 2)) as (rest & -> & Hrest); [divs | divs |].
      eexists. split; [reflexivity |].
      constructor; [| assumption].
      rewrite rem_two_nonneg by lia.
      destruct (Z.eqb_spec (c mod 2) 1); divs.
    + assert (c = 0) as -> by lia.
      exists []. split; [reflexivity | constructor].
Qed.

(** [climb] reads the nodes at the siblings of the route, in order. *)
Lemma climb_route (fuel : nat) :
  forall (c : Z) (acc : list string) (siblings : list Z) (final : Z),
    0 <= c <= Int.max_int - 1 ->
    route fuel c = Some (siblings, final) ->
    Forall (fun s => 0 <= s < 2 * P - 1) siblings ->
    exists values,
      Forall2 (fun s v => look nodes s = Some v) siblings values /\
      climb fuel nodes c acc = Returns (acc ++ values).
Proof.
  induction fuel as [| fuel IH]; intros c acc siblings final Hc Hroute Hin;
    cbn [route climb] in *; destruct (Z.gtb_spec c 0) as [Hpos | Hzero].
  - discriminate.
  - injection Hroute as <- <-. exists []. split; [constructor |].
    now rewrite app_nil_r.
  - rewrite rem_two. cbn [mbind outcome_bind].
    revert Hroute. unwrap. rewrite quo_two by int_range.
    rewrite Z.quot_div_nonneg by lia.
    rewrite wrap_small by (unfold Int.min_int, Int.max_int in *; divs).
    destruct (route fuel ((c - 1) / 2)) as [[rest final'] |] eqn:Hrest;
      [| discriminate].
    intros [= <- <-].
    apply Forall_cons in Hin as [Hs Hin].
    destruct (look_in_range nodes
                (if Z.rem c 2 =? 1 then c + 1 else c - 1)) as [v Hv]; [lia |].
    rewrite (get_look _ _ v) by (lia || assumption).
    cbn [mbind outcome_bind].
    destruct (IH ((c - 1) / 2) (acc ++ [v]) rest final')
      as (values & Hvalues & ->);
      [unfold Int.max_int in *; divs | assumption | assumption |].
    exists (v :: values). split; [now constructor |].
    now rewrite <- app_assoc.
  - injection Hroute as <- <-. exists []. split; [constructor |].
    now rewrite app_nil_r.
Qed.

End Climb.

Section RoundTrip.

Variables (nodes : list string) (L : Z).
Hypothesis offset_range : 0 <= L < 2 ^ 60.
Hypothesis nodes_len : Slice.len nodes = 2 * L + 1.
Hypothesis nodes_inner : inner_from L 0 nodes.

(** From the node at position [idx] of level [d], the loop of [GetProof]
    gathers [d] digests, and folding them as [VerifyProof] does, with
    [idx] as the index, gives the digest of the root. *)
Lemma climb_fold (d : nat) :
  forall (c idx : Z) (h : string) (acc : list string) (fuel : nat),
    c + 1 = 2 ^ Z.of_nat d + idx -> 0 <= idx < 2 ^ Z.of_nat d ->
    c < 2 * L + 1 -> look nodes c = Some h ->
    (Z.to_nat c <= fuel)%nat ->
    exists values root,
      climb fuel nodes c acc = Returns (acc ++ values) /\
      length values = d /\
      look nodes 0 = Some root /\
      fold_proof values h idx = Returns root.
Proof.
  induction d as [| d IH]; intros c idx h acc fuel Hpos Hidx Hc Hh Hfuel.
  - change (2 ^ Z.of_nat 0) with 1 in *.
    assert (c = 0) as -> by lia.
    exists [], h. rewrite app_nil_r.
    destruct fuel; repeat split; auto.
  - rewrite Nat2Z.inj_succ, Z.pow_succ_r in Hpos, Hidx by lia.
    pose proof (Z.pow_pos_nonneg 2 (Z.of_nat d) ltac:(lia) ltac:(lia)) as Hq.
    set (q := 2 ^ Z.of_nat d) in *.
    destruct fuel as [| fuel]; [lia |].
    cbn [climb]. destruct (Z.gtb_spec c 0) as [_ | Hzero]; [| lia].
    rewrite rem_two. cbn [mbind outcome_bind]. unwrap.
    rewrite quo_two by int_range.
    rewrite rem_two_nonneg by lia.
    destruct (nodes_inner ((c - 1) / 2)) as (l & r & Hl & Hr & Hparent);
      [divs |].
    assert (Hnext : forall s h',
               look nodes ((c - 1) / 2) = Some h' ->
               exists values root,
                 climb fuel nodes ((c - 1) / 2) (acc ++ [s]) =
                   Returns (acc ++ s :: values) /\
                 length values = d /\
                 look nodes 0 = Some root /\
                 fold_proof values h' (idx / 2) = Returns root).
    { intros s h' Hh'.
      destruct (IH ((c - 1) / 2) (idx / 2) h' (acc ++ [s]) fuel)
        as (values & root & Hclimb & Hlen & Hroot & Hfold);
        [divs | divs | divs | assumption | divs |].
      exists values, root. rewrite <- app_assoc in Hclimb. auto. }
    destruct (Z.eqb_spec (c mod 2) 1) as [Hodd | Heven].
    + (* a left child: the sibling is at [c + 1] *)
      replace (2 * ((c - 1) / 2) + 1) with c in Hl by divs.
      replace (2 * ((c - 1) / 2) + 2) with (c + 1) in Hr by divs.
      assert (l = h) as -> by congruence.
      rewrite (get_look nodes (c + 1) r) by (lia || assumption).
      cbn [mbind outcome_bind].
      destruct (Hnext r _ Hparent) as (values & root & -> & Hlen & Hroot & Hfold).
      exists (r :: values), root. repeat split; [simpl; lia | assumption |].
      cbn [fold_proof]. rewrite rem_two, rem_two_nonneg by lia.
      cbn [mbind outcome_bind].
      replace (idx mod 2) with 0 by divs. simpl (0 =? 0).
      rewrite quo_two by int_range. assumption.
    + (* a right child: the sibling is at [c - 1] *)
      replace (2 * ((c - 1) / 2) + 1) with (c - 1) in Hl by divs.
      replace (2 * ((c - 1) / 2) + 2) with c in Hr by divs.
      assert (r = h) as -> by congruence.
      rewrite (get_look nodes (c - 1) l) by (lia || assumption).
      cbn [mbind outcome_bind].
      destruct (Hnext l _ Hparent) as (values & root & -> & Hlen & Hroot & Hfold).
      exists (l :: values), root. repeat split; [simpl; lia | assumption |].
      cbn [fold_proof]. rewrite rem_two, rem_two_nonneg by lia.
      cbn [mbind outcome_bind].
      replace (idx mod 2) with 1 by divs. simpl (1 =? 0).
      rewrite quo_two by int_range. assumption.
Qed.

End RoundTrip.

(* ================================================================= *)
(** ** The tree that [NewTree] returns *)

Section Returned.

Context {T : Type} `{Hashable T}.

Lemma NewTree_empty :
  NewTree ([] : list T) =
    Returns (None, Some "cannot create tree with empty data"%string).
Proof. reflexivity. Qed.

Lemma built_of_NewTree (data : list T) (t : Tree T) :
  Slice.addressable data ->
  NewTree data = Returns (Some t, None) ->
  data <> [] /\ built data (nextPowerOfTwo (Slice.len data)) t.
Proof.
  intros Haddr Hnew.
  assert (Hne : data <> []).
  { intros ->. rewrite NewTree_empty in Hnew. discriminate. }
  destruct (NewTree_built data Hne Haddr) as (t' & Hnew' & Hbuilt).
  rewrite Hnew in Hnew'. injection Hnew' as ->. auto.
Qed.

Lemma padded_range (data : list T) :
  data <> [] -> Slice.addressable data ->
  1 <= Slice.len data <= nextPowerOfTwo (Slice.len data) /\
  nextPowerOfTwo (Slice.len data) <= 2 ^ 60.
Proof.
  intros Hne Haddr.
  pose proof (len_nonempty data Hne).
  pose proof (addressable_bound data Haddr).
  pose proof (nextPowerOfTwo_bounds (Slice.len data) ltac:(lia)). lia.
Qed.

Variables (data : list T) (P : Z) (t : Tree T).
Hypothesis count_le_padded : 1 <= Slice.len data <= P.
Hypothesis padded_small : P <= 2 ^ 60.
Hypothesis tree_built : built data P t.

(** [GetProof] at an index in range: the walk, what it reads, and what
    the call returns. *)
Lemma GetProof_in_range (index : Z) :
  0 <= index < Slice.len data ->
  exists siblings proof,
    route (Z.to_nat (LeafOffset t + index)) (LeafOffset t + index) =
      Some (siblings, 0) /\
    Forall (fun s => 0 <= s < 2 * P - 1) siblings /\
    Forall2 (fun s v => look (Nodes t) s = Some v) siblings proof /\
    GetProof t index = Returns (proof, None).
Proof.
  intros Hindex. destruct tree_built as [Hcount Hoffset _ Hlen _ _].
  destruct (route_in_bounds P ltac:(lia) (Z.to_nat (LeafOffset t + index))
              (LeafOffset t + index)) as (siblings & Hroute & Hin);
    [lia | lia |].
  destruct (climb_route (Nodes t) P Hlen (Z.to_nat (LeafOffset t + index))
              (LeafOffset t + index) [] siblings 0)
    as (proof & Hread & Hclimb); [int_range | assumption | assumption |].
  exists siblings, proof. repeat split; try assumption.
  unfold GetProof. rewrite Hcount.
  destruct (Z.ltb_spec index 0); [lia |].
  destruct (Z.geb_spec index (Slice.len data)); [lia |].
  cbn [orb]. unwrap. rewrite Hclimb. reflexivity.
Qed.

Lemma GetProof_out_of_range (index : Z) :
  index < 0 \/ Slice.len data <= index ->
  GetProof t index = Returns ([], Some "index out of range"%string).
Proof.
  intros Hindex. destruct tree_built as [Hcount _ _ _ _ _].
  unfold GetProof. rewrite Hcount.
  destruct (Z.ltb_spec index 0); [reflexivity |].
  destruct (Z.geb_spec index (Slice.len data)); [reflexivity | lia].
Qed.

Lemma GetRoot_look (root : string) :
  look (Nodes t) 0 = Some root -> GetRoot t = root.
Proof.
  intros Hroot. destruct tree_built as [_ _ _ Hlen _ _].
  unfold GetRoot. destruct (Z.eqb_spec (Slice.len (Nodes t)) 0); [lia |].
  rewrite nth_lookup. unfold look in Hroot.
  change (Z.to_nat 0) with 0%nat in Hroot. now rewrite Hroot.
Qed.

(** When the padded count is a power of two, the proof of an item has
    one digest for each level and verifies against the root. *)
Lemma GetProof_verifies (k : nat) (index : Z) (item : T) :
  P = 2 ^ Z.of_nat k ->
  0 <= index -> look data index = Some item ->
  exists proof,
    GetProof t index = Returns (proof, None) /\
    length proof = k /\
    VerifyProof item proof (GetRoot t) index = Returns true.
Proof.
  intros HP Hindex Hitem.
  pose proof (look_Some_range data index item Hindex Hitem) as Hlt.
  destruct tree_built as [Hcount Hoffset _ Hlen Hleaves Hinner].
  assert (Hleaf : look (Nodes t) (P - 1 + index) = Some (hashData item)).
  { rewrite Hleaves by lia. apply leaf_digest_item; [lia | assumption]. }
  destruct (climb_fold (Nodes t) (P - 1) ltac:(lia) Hinner k
              (P - 1 + index) index (hashData item) []
              (Z.to_nat (P - 1 + index)))
    as (proof & root & Hclimb & Hproof & Hroot & Hfold);
    [lia | lia | lia | assumption | lia |].
  exists proof. repeat split; [| assumption |].
  - unfold GetProof. rewrite Hcount, Hoffset.
    destruct (Z.ltb_spec index 0); [lia |].
    destruct (Z.geb_spec index (Slice.len data)); [lia |].
    cbn [orb]. unwrap. rewrite Hclimb. reflexivity.
  - unfold VerifyProof. rewrite Hfold. cbn [mbind outcome_bind].
    rewrite (GetRoot_look root Hroot). now rewrite String.eqb_refl.
Qed.

End Returned.

Lemma fold_proof_recombine (proof : list string) :
  forall (hash : string) (index : Z),
    fold_proof proof hash index = Returns (recombine proof hash index).
Proof.
  induction proof as [| siblingHash rest IH]; intros hash index.
  - reflexivity.
  - cbn [fold_proof recombine]. rewrite rem_two. cbn [mbind outcome_bind].
    unfold Int.quo. simpl (2 =? 0). cbn [mbind outcome_bind]. apply IH.
Qed.

(* ================================================================= *)
(** ** Digests *)

(** The one-block and two-block messages of the SHA-256 examples of
    FIPS 180, and the empty message. *)
Example Sum256_abc :
  Hex.EncodeToString (Sha256.Sum256 (list_byte_of_string "abc")) =
    "ba7816bf8f01cfea414140de5dae2223b00361a396177a9cb410ff61f20015ad"%string.
Proof. vm_compute. reflexivity. Qed.

Example Sum256_two_blocks :
  Hex.EncodeToString
    (Sha256.Sum256
       (list_byte_of_string
          "abcdbcdecdefdefgefghfghighijhijkijkljklmklmnlmnomnopnopq")) =
    "248d6a61d20638b8e5c026930c3e6039a33ce45964ff2167f6ecedd419db06c1"%string.
Proof. vm_compute. reflexivity. Qed.

Example Sum256_empty :
  Hex.EncodeToString (Sha256.Sum256 []) =
    "e3b0c44298fc1c149afbf4c8996fb92427ae41e4649b934ca495991b7852b855"%string.
Proof. vm_compute. reflexivity. Qed.

(** The tree of ["a", "b", "c", "d"] that README.md shows as printed by
    the program, digests cut to eight characters: the root, its two
    children, and the four leaves. *)
Example NewTree_readme :
  exists t : Tree string,
    NewTree ["a"; "b"; "c"; "d"]%string = Returns (Some t, None) /\
    LeafOffset t = 3 /\ LeafCount t = 4 /\
    map (substring 0 8) (Nodes t) =
      ["58c89d70"; "62af5c3c"; "d3a0f1c7";
       "ca978112"; "3e23e816"; "2e7d2c03"; "18ac3e73"]%string.
Proof.
  eexists. split; [vm_compute; reflexivity |].
  split; [reflexivity |]. split; [reflexivity |].
  vm_compute. reflexivity.
Qed.

Lemma Sum256_length (data : list byte) : length (Sha256.Sum256 data) = 32%nat.
Proof. reflexivity. Qed.

Lemma EncodeToString_length (bs : list byte) :
  String.length (Hex.EncodeToString bs) = (2 * length bs)%nat.
Proof.
  induction bs as [| b rest IH]; [reflexivity |].
  cbn [Hex.EncodeToString String.length length]. rewrite IH. lia.
Qed.

Lemma decode_encoded_byte (b : byte) :
  let v := Sha256.byte_to_Z b in
  Hex.value (Hex.digit (v / 16)) = Some (v / 16) /\
  Hex.value (Hex.digit (v mod 16)) = Some (v mod 16) /\
  Sha256.byte_of_Z (16 * (v / 16) + v mod 16) = b.
Proof. destruct b; vm_compute; auto. Qed.

(** Decoding gives back the bytes that were encoded. *)
Lemma DecodeString_EncodeToString (bs : list byte) :
  Hex.DecodeString (Hex.EncodeToString bs) = Some bs.
Proof.
  induction bs as [| b rest IH]; [reflexivity |].
  cbn [Hex.EncodeToString Hex.DecodeString].
  destruct (decode_encoded_byte b) as (-> & -> & ->).
  now rewrite IH.
Qed.

Lemma append_length (s1 s2 : string) :
  String.length (s1 ++ s2) = (String.length s1 + String.length s2)%nat.
Proof.
  induction s1 as [| c s1 IH]; [reflexivity |].
  cbn [String.append String.length]. now rewrite IH.
Qed.

Lemma list_byte_of_string_length (s : string) :
  length (list_byte_of_string s) = String.length s.
Proof.
  unfold list_byte_of_string. rewrite length_map.
  induction s as [| c s IH]; [reflexivity |].
  cbn [list_ascii_of_string String.length length]. now rewrite IH.
Qed.

Lemma hashData_length {T : Type} `{Hashable T} (data : T) :
  String.length (hashData data) = 64%nat.
Proof.
  unfold hashData. now rewrite EncodeToString_length, Sum256_length.
Qed.

Lemma hashNodes_length (left right : string) :
  String.length (hashNodes left right) = 64%nat.
Proof.
  unfold hashNodes. now rewrite EncodeToString_length, Sum256_length.
Qed.

(* ================================================================= *)
(** ** Beyond 2^32 leaves

    [nextPowerOfTwo] smears the highest set bit over the 32 bits below it
    and no further.  For a length above [2^32] the padded count is not a
    power of two, and the first leaves are one level above the others. *)

Lemma nextPowerOfTwo_beyond : nextPowerOfTwo (2 ^ 32 + 1) = 2 ^ 33 - 1.
Proof. reflexivity. Qed.

Lemma not_power_of_two_beyond : ~ is_power_of_two (2 ^ 33 - 1).
Proof.
  intros (k & Hk & Heq).
  destruct (Z.le_gt_cases k 32) as [Hle | Hgt].
  - pose proof (Z.pow_le_mono_r 2 k 32 ltac:(lia) Hle). lia.
  - pose proof (Z.pow_le_mono_r 2 33 k ltac:(lia) ltac:(lia)). lia.
Qed.

Lemma spine_length (a : string) (count : nat) : length (spine a count) = count.
Proof.
  revert a. induction count as [| c IH]; intros a; [reflexivity |].
  cbn [spine length]. now rewrite IH.
Qed.

Lemma lopsided_succ (a b : string) (k : nat) :
  lopsided a b (S k) =
    (hashNodes (lopsided a b k).1 (lopsided a b k).1,
     hashNodes (hashNodes (lopsided a b k).1 (lopsided a b k).1)
               (lopsided a b k).2).
Proof. cbn [lopsided]. now destruct (lopsided a b k). Qed.

Section Lopsided.

Variables (nodes : list string) (m : nat) (ha hb : string).
Hypothesis height_range : (2 <= m <= 59)%nat.
Hypothesis nodes_inner : inner_from (2 ^ Z.of_nat m - 2) 0 nodes.
Hypothesis first_leaf : look nodes (2 ^ Z.of_nat m - 2) = Some hb.
Hypothesis other_leaves :
  forall i, 2 ^ Z.of_nat m - 1 <= i <= 2 ^ (Z.of_nat m + 1) - 4 ->
            look nodes i = Some ha.

Lemma pow2_split (j : nat) : 2 ^ (Z.of_nat j + 1) = 2 * 2 ^ Z.of_nat j.
Proof. rewrite Z.pow_add_r by lia. lia. Qed.

Lemma pow2_below (j : nat) : (j <= m)%nat -> 1 <= 2 ^ Z.of_nat j <= 2 ^ Z.of_nat m.
Proof.
  intros Hj. split.
  - pose proof (Z.pow_pos_nonneg 2 (Z.of_nat j) ltac:(lia) ltac:(lia)). lia.
  - apply Z.pow_le_mono_r; lia.
Qed.

(** Level [j], [k] levels above the lowest one: all its nodes but the
    last hold the digest of a subtree with leaves [ha] only. *)
Lemma level_uniform (k : nat) :
  forall j : nat,
    (k + j = m)%nat -> (1 <= j)%nat ->
    forall i,
      2 ^ Z.of_nat j - 1 <= i <= 2 ^ (Z.of_nat j + 1) - 3 ->
      i <= 2 ^ (Z.of_nat m + 1) - 4 ->
      look nodes i = Some (lopsided ha hb k).1.
Proof.
  induction k as [| k IH]; intros j Hkj Hj i Hi Hend.
  - assert (j = m) as -> by lia. apply other_leaves. lia.
  - rewrite lopsided_succ. cbn [fst].
    pose proof (pow2_below (S j) ltac:(lia)) as Hbelow.
    replace (Z.of_nat (S j)) with (Z.of_nat j + 1) in Hbelow by lia.
    pose proof (pow2_split j) as Hsplit.
    pose proof (pow2_split m) as Hsplitm.
    pose proof (pow2_split (S j)) as Hsplit'.
    replace (Z.of_nat (S j)) with (Z.of_nat j + 1) in Hsplit' by lia.
    destruct (nodes_inner i) as (l & r & Hl & Hr & Hnode); [lia |].
    rewrite (IH (S j)) in Hl, Hr.
    + injection Hl as <-. injection Hr as <-. assumption.
    + lia.
    + lia.
    + replace (Z.of_nat (S j)) with (Z.of_nat j + 1) by lia. lia.
    + lia.
    + lia.
    + lia.
    + replace (Z.of_nat (S j)) with (Z.of_nat j + 1) by lia. lia.
    + lia.
Qed.

(** The last node of the level above holds the digest of the subtree
    that ends with the leaf [hb]. *)
Lemma level_last (k : nat) :
  forall j : nat,
    (k + j = m)%nat -> (1 <= j)%nat ->
    look nodes (2 ^ Z.of_nat j - 2) = Some (lopsided ha hb k).2.
Proof.
  induction k as [| k IH]; intros j Hkj Hj.
  - assert (j = m) as -> by lia. exact first_leaf.
  - rewrite lopsided_succ. cbn [snd].
    pose proof (pow2_below (S j) ltac:(lia)) as Hbelow.
    replace (Z.of_nat (S j)) with (Z.of_nat j + 1) in Hbelow by lia.
    pose proof (pow2_below j ltac:(lia)) as Hbelow'.
    pose proof (pow2_split j) as Hsplit.
    pose proof (pow2_split m) as Hsplitm.
    assert (Hj2 : 2 <= 2 ^ Z.of_nat j).
    { change 2 with (2 ^ 1) at 1. apply Z.pow_le_mono_r; lia. }
    destruct (nodes_inner (2 ^ Z.of_nat j - 2)) as (l & r & Hl & Hr & Hnode);
      [lia |].
    rewrite (level_uniform (S k) j) in Hl by lia.
    replace (2 * (2 ^ Z.of_nat j - 2) + 2) with (2 ^ Z.of_nat (S j) - 2) in Hr
      by (replace (Z.of_nat (S j)) with (Z.of_nat j + 1) by lia; lia).
    rewrite (IH (S j)) in Hr by lia.
    injection Hl as <-. injection Hr as <-.
    destruct (lopsided ha hb k); exact Hnode.
Qed.

(** From the last node of level [j], the loop of [GetProof] gathers the
    digests of the uniform subtrees, one for each level above. *)
Lemma climb_spine (j' : nat) :
  forall (k : nat) (fuel : nat) (acc : list string),
    (k + S j' = m)%nat ->
    (Z.to_nat (2 ^ Z.of_nat (S j') - 2) <= fuel)%nat ->
    climb fuel nodes (2 ^ Z.of_nat (S j') - 2) acc =
      Returns (acc ++ spine (lopsided ha hb k).1 j').
Proof.
  induction j' as [| j' IH]; intros k fuel acc Hkj Hfuel.
  - change (2 ^ Z.of_nat 1 - 2) with 0. cbn [spine]. rewrite app_nil_r.
    now destruct fuel.
  - pose proof (pow2_below (S (S j')) ltac:(lia)) as Hbelow.
    pose proof (pow2_below (S j') ltac:(lia)) as Hbelow'.
    pose proof (pow2_split (S j')) as Hsplit.
    pose proof (pow2_split m) as Hsplitm.
    pose proof (Z.pow_le_mono_r 2 (Z.of_nat m) 59 ltac:(lia) ltac:(lia)) as Hm.
    replace (Z.of_nat (S (S j'))) with (Z.of_nat (S j') + 1) in * by lia.
    assert (Hj2 : 2 <= 2 ^ Z.of_nat (S j')).
    { change 2 with (2 ^ 1) at 1. apply Z.pow_le_mono_r; lia. }
    set (q := 2 ^ Z.of_nat (S j')) in *.
    rewrite Hsplit in *.
    destruct fuel as [| fuel]; [lia |].
    cbn [climb]. destruct (Z.gtb_spec (2 * q - 2) 0) as [_ | Hzero]; [| lia].
    rewrite rem_two. cbn [mbind outcome_bind]. unwrap.
    rewrite quo_two by int_range.
    rewrite rem_two_nonneg by lia.
    replace ((2 * q - 2) mod 2) with 0 by divs. simpl (0 =? 1).
    replace ((2 * q - 2 - 1) / 2) with (q - 2) by divs.
    assert (Hsib : look nodes (2 * q - 2 - 1) = Some (lopsided ha hb (S k)).1).
    { apply (level_uniform (S k) (S j')); [lia | lia | | lia].
      fold q. rewrite Hsplit. lia. }
    rewrite (get_look nodes (2 * q - 2 - 1) _ ltac:(lia) Hsib).
    cbn [mbind outcome_bind].
    unfold q. rewrite (IH (S k)) by (fold q; lia).
    rewrite <- app_assoc. cbn [spine app].
    rewrite lopsided_succ. reflexivity.
Qed.

End Lopsided.

(* ================================================================= *)
(** ** The tree over 2^32 + 1 items *)

Lemma lookup_tail {A : Type} (x : A) (l : list A) (n : nat) :
  (x :: l) !! S n = l !! n.
Proof. reflexivity. Qed.

Lemma beyond_len : Slice.len beyond = 2 ^ 32 + 1.
Proof.
  unfold beyond, Slice.len. rewrite length_cons, length_replicate. lia.
Qed.

Lemma beyond_first : look beyond 0 = Some "b"%string.
Proof. reflexivity. Qed.

Lemma beyond_rest (i : Z) : 1 <= i <= 2 ^ 32 -> look beyond i = Some "a"%string.
Proof.
  intros Hi. unfold look, beyond.
  replace (Z.to_nat i) with (S (Z.to_nat (i - 1))) by lia.
  rewrite lookup_tail. apply lookup_replicate_2. lia.
Qed.

Lemma beyond_addressable : Slice.addressable beyond.
Proof.
  unfold Slice.addressable, Slice.header_size, Int.bits.
  rewrite beyond_len. lia.
Qed.

Lemma beyond_leaf_first : leaf_digest beyond 0 = Some (hashData "b"%string).
Proof.
  unfold leaf_digest. rewrite beyond_len.
  destruct (Z.ltb_spec 0 (2 ^ 32 + 1)); [| lia].
  now rewrite beyond_first.
Qed.

Lemma beyond_leaf_rest (j : Z) :
  1 <= j -> leaf_digest beyond j = Some (hashData "a"%string).
Proof.
  intros Hj. unfold leaf_digest. rewrite beyond_len.
  destruct (Z.ltb_spec j (2 ^ 32 + 1)).
  - now rewrite beyond_rest by lia.
  - now rewrite beyond_rest by lia.
Qed.

(** [NewTree] returns a tree for it, with 2^33 - 1 leaf slots. *)
Lemma beyond_built :
  exists t, NewTree beyond = Returns (Some t, None) /\ built beyond (2 ^ 33 - 1) t.
Proof.
  destruct (NewTree_built beyond) as (t & Hnew & Hbuilt).
  - unfold beyond. intros Heq. discriminate Heq.
  - exact beyond_addressable.
  - rewrite beyond_len, nextPowerOfTwo_beyond in Hbuilt.
    exists t. split; assumption.
Qed.

Section Beyond.

Variable t : Tree string.
Hypothesis tree_built : built beyond (2 ^ 33 - 1) t.

Let ha : string := hashData "a"%string.
Let hb : string := hashData "b"%string.

Lemma beyond_inner : inner_from (2 ^ Z.of_nat 33 - 2) 0 (Nodes t).
Proof.
  destruct tree_built as [_ _ _ _ _ Hinner].
  intros i Hi. apply Hinner. change (2 ^ Z.of_nat 33) with (2 ^ 33) in Hi. lia.
Qed.

Lemma beyond_node_first : look (Nodes t) (2 ^ Z.of_nat 33 - 2) = Some hb.
Proof.
  destruct tree_built as [_ _ _ _ Hleaves _].
  unfold hb. rewrite <- beyond_leaf_first.
  change (2 ^ Z.of_nat 33 - 2) with (2 ^ 33 - 1 - 1 + 0).
  apply Hleaves. lia.
Qed.

Lemma beyond_node_rest (i : Z) :
  2 ^ Z.of_nat 33 - 1 <= i <= 2 ^ (Z.of_nat 33 + 1) - 4 ->
  look (Nodes t) i = Some ha.
Proof.
  intros Hi. destruct tree_built as [_ _ _ _ Hleaves _].
  change (2 ^ Z.of_nat 33) with (2 ^ 33) in Hi.
  change (2 ^ (Z.of_nat 33 + 1)) with (2 ^ 34) in Hi.
  unfold ha. rewrite <- (beyond_leaf_rest (i - (2 ^ 33 - 1 - 1))) by lia.
  replace i with (2 ^ 33 - 1 - 1 + (i - (2 ^ 33 - 1 - 1))) at 1 by lia.
  apply Hleaves. lia.
Qed.

Lemma beyond_root : GetRoot t = (lopsided ha hb 32).2.
Proof.
  apply (GetRoot_look beyond (2 ^ 33 - 1) t tree_built).
  exact (level_last (Nodes t) 33 ha hb ltac:(lia) beyond_inner
           beyond_node_first beyond_node_rest 32 1 ltac:(lia) ltac:(lia)).
Qed.

(** The proof of item 0 has 32 digests. *)
Lemma beyond_proof_first : GetProof t 0 = Returns (spine ha 32, None).
Proof.
  destruct tree_built as [Hcount Hoffset _ _ _ _].
  unfold GetProof. rewrite Hcount, Hoffset, beyond_len.
  simpl ((0 <? 0) || (0 >=? 2 ^ 32 + 1)). unwrap.
  change (2 ^ 33 - 1 - 1 + 0) with (2 ^ Z.of_nat 33 - 2).
  rewrite (climb_spine (Nodes t) 33 ha hb ltac:(lia) beyond_inner
             beyond_node_rest 32 0) by lia.
  reflexivity.
Qed.

(** The proof of item 1 has 33. *)
Lemma beyond_proof_second :
  exists proof, GetProof t 1 = Returns (proof, None) /\ length proof = 33%nat.
Proof.
  destruct tree_built as [Hcount Hoffset _ _ _ _].
  destruct (climb_fold (Nodes t) (2 ^ Z.of_nat 33 - 2) ltac:(lia) beyond_inner
              33 (2 ^ 33 - 1) 0 ha [] (Z.to_nat (2 ^ 33 - 1)))
    as (proof & root & Hclimb & Hlen & _); [lia | lia | lia | | lia |].
  { apply beyond_node_rest. lia. }
  exists proof. split; [| assumption].
  unfold GetProof. rewrite Hcount, Hoffset, beyond_len.
  simpl ((1 <? 0) || (1 >=? 2 ^ 32 + 1)). unwrap.
  change (2 ^ 33 - 1 - 1 + 1) with (2 ^ 33 - 1).
  now rewrite Hclimb.
Qed.

End Beyond.

(** Folding the proof of item 0 with the index 0 does not give the root. *)
Lemma beyond_mismatch :
  String.eqb
    (recombine (spine (hashData "a"%string) 32) (hashData "b"%string) 0)
    (lopsided (hashData "a"%string) (hashData "b"%string) 32).2 = false.
Proof. vm_compute. reflexivity. Qed.

(* ================================================================= *)
(** ** Up to 2^32 leaves *)

(** For a length up to [2^32], [nextPowerOfTwo] is the smallest power of
    two that is at least the length. *)
Lemma nextPowerOfTwo_smallest (n : Z) :
  1 <= n <= 2 ^ 32 ->
  is_power_of_two (nextPowerOfTwo n) /\
  n <= nextPowerOfTwo n /\
  (forall p, is_power_of_two p -> n <= p -> nextPowerOfTwo n <= p).
Proof.
  intros Hn. rewrite nextPowerOfTwo_pow2 by assumption.
  destruct (levels_least n ltac:(lia)) as [Hle Hleast].
  split; [| split].
  - exists (levels n). split; [apply levels_nonneg | reflexivity].
  - assumption.
  - intros p (k & Hk & ->) Hp. apply Z.pow_le_mono_r; [lia |].
    now apply Hleast.
Qed.

Lemma nextPowerOfTwo_fixed (n : Z) :
  1 <= n <= 2 ^ 32 -> is_power_of_two n -> nextPowerOfTwo n = n.
Proof.
  intros Hn Hpow.
  destruct (nextPowerOfTwo_smallest n Hn) as (_ & Hge & Hleast).
  specialize (Hleast n Hpow ltac:(lia)). lia.
Qed.

Section UpTo.

Context {T : Type} `{Hashable T}.

Lemma addressable_upto (data : list T) :
  Slice.len data <= 2 ^ 32 -> Slice.addressable data.
Proof.
  unfold Slice.addressable, Slice.header_size, Int.bits. lia.
Qed.

(** Round trip and proof length for a slice of up to [2^32] items. *)
Lemma round_trip_upto_2_32 (data : list T) (t : Tree T) (index : Z) (item : T) :
  Slice.len data <= 2 ^ 32 ->
  NewTree data = Returns (Some t, None) ->
  0 <= index -> look data index = Some item ->
  exists proof,
    GetProof t index = Returns (proof, None) /\
    Z.of_nat (length proof) = levels (Slice.len data) /\
    nextPowerOfTwo (Slice.len data) = 2 ^ levels (Slice.len data) /\
    VerifyProof item proof (GetRoot t) index = Returns true.
Proof.
  intros Hlen Hnew Hindex Hitem.
  pose proof (addressable_upto data Hlen) as Haddr.
  destruct (built_of_NewTree data t Haddr Hnew) as [Hne Hbuilt].
  destruct (padded_range data Hne Haddr) as [Hn HP].
  pose proof (nextPowerOfTwo_pow2 (Slice.len data) ltac:(lia)) as Hpow.
  pose proof (levels_nonneg (Slice.len data)) as Hk.
  destruct (GetProof_verifies data _ t Hn HP Hbuilt
              (Z.to_nat (levels (Slice.len data))) index item)
    as (proof & Hproof & Hlength & Hverify);
    [now rewrite Z2Nat.id | assumption | assumption |].
  exists proof. repeat split; try assumption. lia.
Qed.

(** The padded leaf count of a tree over up to [2^32] items, which is
    [LeafOffset + 1]: the smallest power of two that is at least the
    number of items, and that number when it is a power of two. *)
Lemma padded_count_upto_2_32 (data : list T) (t : Tree T) :
  Slice.len data <= 2 ^ 32 ->
  NewTree data = Returns (Some t, None) ->
  LeafOffset t + 1 = nextPowerOfTwo (Slice.len data) /\
  is_power_of_two (LeafOffset t + 1) /\
  Slice.len data <= LeafOffset t + 1 /\
  (forall p, is_power_of_two p -> Slice.len data <= p -> LeafOffset t + 1 <= p) /\
  (is_power_of_two (Slice.len data) -> LeafOffset t + 1 = Slice.len data) /\
  Slice.len (Nodes t) = 2 * (LeafOffset t + 1) - 1.
Proof.
  intros Hlen Hnew.
  pose proof (addressable_upto data Hlen) as Haddr.
  destruct (built_of_NewTree data t Haddr Hnew) as [Hne Hbuilt].
  pose proof (len_nonempty data Hne) as Hn.
  destruct Hbuilt as [_ Hoffset _ Hnodes _ _].
  replace (LeafOffset t + 1) with (nextPowerOfTwo (Slice.len data)) by lia.
  destruct (nextPowerOfTwo_smallest (Slice.len data) ltac:(lia))
    as (Hpow & Hge & Hleast).
  split; [reflexivity |]. split; [assumption |]. split; [assumption |].
  split; [assumption |]. split; [| assumption].
  apply nextPowerOfTwo_fixed. lia.
Qed.

(** Every digest of the array is 64 characters long. *)
Lemma node_length (data : list T) (P : Z) (t : Tree T) (j : Z) (v : string) :
  built data P t -> 0 <= j -> look (Nodes t) j = Some v ->
  String.length v = 64%nat.
Proof.
  intros [_ _ _ Hlen Hleaves Hinner] Hj Hv.
  pose proof (look_Some_range _ _ _ Hj Hv) as Hrange.
  destruct (Z.lt_ge_cases j (P - 1)) as [Hin | Hleaf].
  - destruct (Hinner j ltac:(lia)) as (l & r & _ & _ & Hnode).
    rewrite Hnode in Hv. injection Hv as <-. apply hashNodes_length.
  - replace j with (P - 1 + (j - (P - 1))) in Hv by lia.
    rewrite Hleaves in Hv by lia. unfold leaf_digest in Hv.
    destruct (look data _) as [item |]; [| discriminate].
    injection Hv as <-. apply hashData_length.
Qed.

End UpTo.

(* ================================================================= *)
(** ** The properties of the specification

    The input of [NewTree] is a slice that the program can hold
    ([Slice.addressable]); a tree that [NewTree] returns is a [t] with
    [NewTree data = Returns (Some t, None)]. *)

Section Properties.

Context {T : Type} `{Hashable T}.

(** What the code does at the inner nodes.  In a tree that [NewTree]
    returns, every node at an index [0 <= i < LeafOffset] holds
    [hashNodes] of its two children: the hex form of the SHA-256 digest
    of the 128 bytes of text made of the two children's 64-character hex
    digests, one after the other. *)
Theorem inner_node_hashes_hex_text (data : list T) (t : Tree T) (i : Z) :
  Slice.addressable data ->
  NewTree data = Returns (Some t, None) ->
  0 <= i < LeafOffset t ->
  exists l r,
    look (Nodes t) (2 * i + 1) = Some l /\
    look (Nodes t) (2 * i + 2) = Some r /\
    String.length l = 64%nat /\
    String.length r = 64%nat /\
    length (list_byte_of_string (l ++ r)%string) = 128%nat /\
    look (Nodes t) i =
      Some (Hex.EncodeToString
              (Sha256.Sum256 (list_byte_of_string (l ++ r)%string))).
Proof.
  intros Haddr Hnew Hi.
  destruct (built_of_NewTree data t Haddr Hnew) as [Hne Hbuilt].
  pose proof Hbuilt as [_ Hoffset _ _ _ Hinner].
  destruct (Hinner i ltac:(lia)) as (l & r & Hl & Hr & Hnode).
  pose proof (node_length data _ t (2 * i + 1) l Hbuilt ltac:(lia) Hl) as Hll.
  pose proof (node_length data _ t (2 * i + 2) r Hbuilt ltac:(lia) Hr) as Hlr.
  exists l, r. repeat split; try assumption.
  rewrite list_byte_of_string_length, append_length, Hll, Hlr. reflexivity.
Qed.

(** C3.  In a tree that [NewTree] returns, every leaf slot from
    [LeafOffset + LeafCount] to [LeafOffset + paddedLeafCount - 1] holds
    the digest held at [LeafOffset + LeafCount - 1], which is the digest
    of the last item. *)
Theorem C3_padding_repeats_last_leaf (data : list T) (t : Tree T) (j : Z) :
  Slice.addressable data ->
  NewTree data = Returns (Some t, None) ->
  LeafCount t <= j < nextPowerOfTwo (LeafCount t) ->
  exists item,
    LeafOffset t = nextPowerOfTwo (LeafCount t) - 1 /\
    look data (LeafCount t - 1) = Some item /\
    look (Nodes t) (LeafOffset t + LeafCount t - 1) = Some (hashData item) /\
    look (Nodes t) (LeafOffset t + j) = Some (hashData item).
Proof.
  intros Haddr Hnew Hj.
  destruct (built_of_NewTree data t Haddr Hnew) as [Hne Hbuilt].
  destruct (padded_range data Hne Haddr) as [Hn HP].
  destruct Hbuilt as [Hcount Hoffset _ _ Hleaves _].
  rewrite Hcount in *. rewrite Hoffset.
  destruct (look_in_range data (Slice.len data - 1)) as [item Hitem]; [lia |].
  assert (Hlast : leaf_digest data (Slice.len data - 1) = Some (hashData item)).
  { apply leaf_digest_item; [lia | assumption]. }
  exists item. repeat split; [assumption | |].
  - replace (nextPowerOfTwo (Slice.len data) - 1 + Slice.len data - 1)
      with (nextPowerOfTwo (Slice.len data) - 1 + (Slice.len data - 1)) by lia.
    rewrite Hleaves by lia. assumption.
  - rewrite Hleaves by lia.
    rewrite (leaf_digest_padding data j) by lia. assumption.
Qed.

(** C6.  [NewTree] returns an error and no tree when the input is empty,
    and a tree and no error for every other input. *)
Theorem C6_NewTree_fails_exactly_on_empty_input (data : list T) :
  Slice.addressable data ->
  (data = [] ->
   NewTree data =
     Returns (None, Some "cannot create tree with empty data"%string)) /\
  (data <> [] -> exists t, NewTree data = Returns (Some t, None)).
Proof.
  intros Haddr. split.
  - intros ->. apply NewTree_empty.
  - intros Hne. destruct (NewTree_built data Hne Haddr) as (t & Hnew & _).
    now exists t.
Qed.

(** C7.  On a tree that [NewTree] returns, [GetProof] returns the error
    and the nil proof when the index is negative or at least the number
    of items, and a proof and no error for every other index. *)
Theorem C7_GetProof_fails_exactly_out_of_range
    (data : list T) (t : Tree T) (index : Z) :
  Slice.addressable data ->
  NewTree data = Returns (Some t, None) ->
  LeafCount t = Slice.len data /\
  (index < 0 \/ LeafCount t <= index ->
   GetProof t index = Returns ([], Some "index out of range"%string)) /\
  (0 <= index < LeafCount t ->
   exists proof, GetProof t index = Returns (proof, None)).
Proof.
  intros Haddr Hnew.
  destruct (built_of_NewTree data t Haddr Hnew) as [Hne Hbuilt].
  destruct (padded_range data Hne Haddr) as [Hn HP].
  pose proof Hbuilt as [Hcount _ _ _ _ _]. rewrite Hcount.
  split; [reflexivity | split].
  - apply (GetProof_out_of_range data _ t Hbuilt).
  - intros Hindex.
    destruct (GetProof_in_range data _ t Hn HP Hbuilt index Hindex)
      as (_ & proof & _ & _ & _ & Hproof).
    now exists proof.
Qed.

(** C8.  [VerifyProof] never panics, for any item, proof,
    root and index: it returns a boolean.  The item, the proof and the
    index determine one digest, and the boolean is [true] when the
    expected root is that digest and [false] for every other root. *)
Theorem C8_VerifyProof_never_errors
    (data : T) (proof : list string) (index : Z) :
  exists digest : string,
    forall rootHash : string,
      VerifyProof data proof rootHash index =
        Returns (String.eqb digest rootHash) /\
      (VerifyProof data proof rootHash index = Returns true <->
       rootHash = digest) /\
      (VerifyProof data proof rootHash index = Returns false <->
       rootHash <> digest).
Proof.
  exists (recombine proof (hashData data) index). intros rootHash.
  unfold VerifyProof. rewrite fold_proof_recombine.
  cbn [mbind outcome_bind].
  set (digest := recombine proof (hashData data) index).
  pose proof (String.eqb_eq digest rootHash) as Heq.
  pose proof (String.eqb_neq digest rootHash) as Hneq.
  destruct (String.eqb digest rootHash).
  - split; [reflexivity |]. split; split; intros Hyp.
    + symmetry. now apply Heq.
    + reflexivity.
    + discriminate Hyp.
    + exfalso. apply Hyp. symmetry. now apply Heq.
  - split; [reflexivity |]. split; split; intros Hyp.
    + discriminate Hyp.
    + exfalso. assert (Hne : digest <> rootHash) by now apply Hneq.
      apply Hne. now symmetry.
    + intros Hsame. assert (Hne : digest <> rootHash) by now apply Hneq.
      apply Hne. now symmetry.
    + reflexivity.
Qed.

(** C9.  On a tree that [NewTree] returns and for an index in range, the
    loop of [GetProof] ends at index 0, and every sibling index that it
    reads is a position of the nodes array. *)
Theorem C9_walk_stays_in_bounds (data : list T) (t : Tree T) (index : Z) :
  Slice.addressable data ->
  NewTree data = Returns (Some t, None) ->
  0 <= index < LeafCount t ->
  exists siblings proof,
    route (Z.to_nat (LeafOffset t + index)) (LeafOffset t + index) =
      Some (siblings, 0) /\
    Forall (fun s => 0 <= s < 2 * nextPowerOfTwo (LeafCount t) - 1) siblings /\
    Slice.len (Nodes t) = 2 * nextPowerOfTwo (LeafCount t) - 1 /\
    Forall2 (fun s v => look (Nodes t) s = Some v) siblings proof /\
    GetProof t index = Returns (proof, None).
Proof.
  intros Haddr Hnew Hindex.
  destruct (built_of_NewTree data t Haddr Hnew) as [Hne Hbuilt].
  destruct (padded_range data Hne Haddr) as [Hn HP].
  pose proof Hbuilt as [Hcount _ _ Hlen _ _]. rewrite Hcount in *.
  destruct (GetProof_in_range data _ t Hn HP Hbuilt index Hindex)
    as (siblings & proof & Hroute & Hin & Hread & Hproof).
  exists siblings, proof. repeat split; assumption.
Qed.

(** With an empty proof, [VerifyProof] returns whether the digest of
    the item, [hashData data], is the root, whatever the index. *)
Theorem empty_proof_ignores_index
    (data : T) (rootHash : string) (index : Z) :
  VerifyProof data [] rootHash index =
    Returns (String.eqb (hashData data) rootHash) /\
  (VerifyProof data [] rootHash index = Returns true <->
   hashData data = rootHash).
Proof.
  unfold VerifyProof. cbn [fold_proof mbind outcome_bind].
  split; [reflexivity |].
  rewrite <- String.eqb_eq.
  destruct (String.eqb (hashData data) rootHash);
    split; congruence.
Qed.

End Properties.

(** On the tree of ["a", "b"] the root is not the hash of the two raw
    32-byte digests. *)
Lemma raw_digest_hash_differs :
  ~ (forall (t : Tree string) (i : Z),
       NewTree ["a"; "b"]%string = Returns (Some t, None) ->
       0 <= i < LeafOffset t ->
       exists l r,
         look (Nodes t) (2 * i + 1) = Some l /\
         look (Nodes t) (2 * i + 2) = Some r /\
         look (Nodes t) i = spec_hashNodes l r).
Proof.
  intros Hclaim.
  remember (NewTree ["a"; "b"]%string) as built_tree eqn:Hnew.
  vm_compute in Hnew. symmetry in Hnew. subst built_tree.
  specialize (Hclaim _ 0 eq_refl ltac:(simpl; lia)).
  destruct Hclaim as (l & r & Hl & Hr & Hroot).
  vm_compute in Hl, Hr. injection Hl as <-. injection Hr as <-.
  vm_compute in Hroot. discriminate Hroot.
Qed.

Lemma inner_node_hashes_hex_text_example :
  exists t : Tree string,
    NewTree ["a"; "b"; "c"]%string = Returns (Some t, None) /\
    exists l r,
      look (Nodes t) (2 * 0 + 1) = Some l /\
      look (Nodes t) (2 * 0 + 2) = Some r /\
      String.length l = 64%nat /\
      String.length r = 64%nat /\
      length (list_byte_of_string (l ++ r)%string) = 128%nat /\
      look (Nodes t) 0 =
        Some (Hex.EncodeToString
                (Sha256.Sum256 (list_byte_of_string (l ++ r)%string))).
Proof.
  eexists. split.
  - vm_compute. reflexivity.
  - apply (inner_node_hashes_hex_text ["a"; "b"; "c"]%string).
    + vm_compute. reflexivity.
    + vm_compute. reflexivity.
    + simpl. lia.
Defined.

Lemma C3_witness :
  exists t : Tree string,
    NewTree ["a"; "b"; "c"]%string = Returns (Some t, None) /\
    exists item,
      LeafOffset t = nextPowerOfTwo (LeafCount t) - 1 /\
      look ["a"; "b"; "c"]%string (LeafCount t - 1) = Some item /\
      look (Nodes t) (LeafOffset t + LeafCount t - 1) = Some (hashData item) /\
      look (Nodes t) (LeafOffset t + 3) = Some (hashData item).
Proof.
  eexists. split.
  - vm_compute. reflexivity.
  - apply (C3_padding_repeats_last_leaf ["a"; "b"; "c"]%string).
    + vm_compute. reflexivity.
    + vm_compute. reflexivity.
    + vm_compute. split; [discriminate | reflexivity].
Defined.

Lemma C6_witness :
  (["x"]%string = [] ->
   NewTree ["x"]%string =
     Returns (None, Some "cannot create tree with empty data"%string)) /\
  (["x"]%string <> [] ->
   exists t, NewTree ["x"]%string = Returns (Some t, None)).
Proof.
  apply (C6_NewTree_fails_exactly_on_empty_input ["x"]%string).
  vm_compute. reflexivity.
Defined.

Lemma C7_witness :
  exists t : Tree string,
    NewTree ["a"; "b"]%string = Returns (Some t, None) /\
    LeafCount t = Slice.len ["a"; "b"]%string /\
    (2 < 0 \/ LeafCount t <= 2 ->
     GetProof t 2 = Returns ([], Some "index out of range"%string)) /\
    (0 <= 2 < LeafCount t ->
     exists proof, GetProof t 2 = Returns (proof, None)).
Proof.
  eexists. split.
  - vm_compute. reflexivity.
  - apply (C7_GetProof_fails_exactly_out_of_range ["a"; "b"]%string).
    + vm_compute. reflexivity.
    + vm_compute. reflexivity.
Defined.

Lemma C9_witness :
  exists t : Tree string,
    NewTree ["a"; "b"; "c"]%string = Returns (Some t, None) /\
    exists siblings proof,
      route (Z.to_nat (LeafOffset t + 2)) (LeafOffset t + 2) =
        Some (siblings, 0) /\
      Forall (fun s => 0 <= s < 2 * nextPowerOfTwo (LeafCount t) - 1) siblings /\
      Slice.len (Nodes t) = 2 * nextPowerOfTwo (LeafCount t) - 1 /\
      Forall2 (fun s v => look (Nodes t) s = Some v) siblings proof /\
      GetProof t 2 = Returns (proof, None).
Proof.
  eexists. split.
  - vm_compute. reflexivity.
  - apply (C9_walk_stays_in_bounds ["a"; "b"; "c"]%string).
    + vm_compute. reflexivity.
    + vm_compute. reflexivity.
    + simpl. lia.
Defined.

(** C5 at a length of 2^32 + 1.  The padded leaf count that [NewTree]
    computes is 2^33 - 1, which is not a power of two (the smallest one
    that is at least the length is 2^33); the tree has 2^34 - 3 nodes and
    its leaves start at 2^33 - 2. *)
Theorem C5_padded_count_beyond_2_32 :
  nextPowerOfTwo (Slice.len beyond) = 2 ^ 33 - 1 /\
  ~ is_power_of_two (nextPowerOfTwo (Slice.len beyond)) /\
  exists t : Tree string,
    NewTree beyond = Returns (Some t, None) /\
    LeafCount t = 2 ^ 32 + 1 /\
    LeafOffset t = 2 ^ 33 - 2 /\
    Slice.len (Nodes t) = 2 ^ 34 - 3.
Proof.
  rewrite beyond_len, nextPowerOfTwo_beyond.
  split; [reflexivity | split; [exact not_power_of_two_beyond |]].
  destruct beyond_built as (t & Hnew & [Hcount Hoffset _ Hlen _ _]).
  exists t. rewrite Hcount, Hoffset, Hlen, beyond_len.
  split; [assumption |]. split; [lia |]. split; lia.
Qed.

(** C2 at a length of 2^32 + 1.  [VerifyProof] returns [false] for the
    first item of the slice, the proof that [GetProof] returns for index 0
    and the root of the tree. *)
Theorem C2_round_trip_fails_beyond_2_32 :
  exists (t : Tree string) (proof : list string),
    NewTree beyond = Returns (Some t, None) /\
    look beyond 0 = Some "b"%string /\
    GetProof t 0 = Returns (proof, None) /\
    VerifyProof "b"%string proof (GetRoot t) 0 = Returns false.
Proof.
  destruct beyond_built as (t & Hnew & Hbuilt).
  exists t, (spine (hashData "a"%string) 32).
  split; [assumption |]. split; [exact beyond_first |].
  split; [apply (beyond_proof_first t Hbuilt) |].
  unfold VerifyProof. rewrite fold_proof_recombine.
  rewrite (beyond_root t Hbuilt). cbn [mbind outcome_bind].
  now rewrite beyond_mismatch.
Qed.

(** C4 at a length of 2^32 + 1.  The proofs of the first two items have
    32 and 33 digests. *)
Theorem C4_proof_lengths_differ_beyond_2_32 :
  exists (t : Tree string) (first second : list string),
    NewTree beyond = Returns (Some t, None) /\
    GetProof t 0 = Returns (first, None) /\
    GetProof t 1 = Returns (second, None) /\
    length first = 32%nat /\
    length second = 33%nat.
Proof.
  destruct beyond_built as (t & Hnew & Hbuilt).
  destruct (beyond_proof_second t Hbuilt) as (second & Hsecond & Hlen).
  exists t, (spine (hashData "a"%string) 32), second.
  split; [assumption |].
  split; [apply (beyond_proof_first t Hbuilt) |].
  split; [assumption |].
  split; [apply spine_length | assumption].
Qed.

(** C1 on ["a", "b", "c", "d"].  README.md documents the root of this tree
    as 14ede5e8...13e7, which is what the claim says: the hash of the raw
    32-byte digests of the children, at both inner levels.  [GetRoot]
    returns 58c89d70...2cfd, the hash of the hex text of the children,
    and the root is not the raw-digest hash of its two children either. *)
Theorem C1_root_is_not_the_documented_root :
  exists (t : Tree string) (l r : string),
    NewTree ["a"; "b"; "c"; "d"]%string = Returns (Some t, None) /\
    spec_hashNodes (hashData "a"%string) (hashData "b"%string) = Some l /\
    spec_hashNodes (hashData "c"%string) (hashData "d"%string) = Some r /\
    spec_hashNodes l r =
      Some "14ede5e8e97ad9372327728f5099b95604a39593cac3bd38a343ad76205213e7"%string /\
    GetRoot t =
      "58c89d709329eb37285837b042ab6ff72c7c8f74de0446b091b6a0131c102cfd"%string /\
    exists left right,
      look (Nodes t) 1 = Some left /\
      look (Nodes t) 2 = Some right /\
      look (Nodes t) 0 = Some (hashNodes left right) /\
      look (Nodes t) 0 <> spec_hashNodes left right.
Proof.
  eexists. eexists. eexists.
  split; [vm_compute; reflexivity |].
  split; [vm_compute; reflexivity |].
  split; [vm_compute; reflexivity |].
  split; [vm_compute; reflexivity |].
  split; [vm_compute; reflexivity |].
  eexists. eexists.
  split; [vm_compute; reflexivity |].
  split; [vm_compute; reflexivity |].
  split; [vm_compute; reflexivity |].
  vm_compute. intros Hsame. discriminate Hsame.
Qed.

(** C8, as the specification states it, fails on the tree of ["a", "b"]:
    with the item "a", its proof and the root, the wrong index 2 is
    reported as [true], not as [false]. *)
Lemma C8_counterexample :
  ~ (forall (t : Tree string) (proof : list string) (index : Z),
       NewTree ["a"; "b"]%string = Returns (Some t, None) ->
       GetProof t 0 = Returns (proof, None) ->
       index <> 0 ->
       VerifyProof "a"%string proof (GetRoot t) index = Returns false).
Proof.
  intros Hclaim.
  remember (NewTree ["a"; "b"]%string) as built_tree eqn:Hnew.
  vm_compute in Hnew. symmetry in Hnew. subst built_tree.
  specialize (Hclaim _ _ 2 eq_refl ltac:(vm_compute; reflexivity) ltac:(lia)).
  vm_compute in Hclaim. discriminate Hclaim.
Qed.

(** A forged item is accepted as well: the hex digests of "a" and "b",
    one after the other, verify against the root of ["a", "b"] with an
    empty proof. *)
Lemma forged_item_verifies :
  exists t : Tree string,
    NewTree ["a"; "b"]%string = Returns (Some t, None) /\
    VerifyProof (hashData "a"%string ++ hashData "b"%string)%string []
                (GetRoot t) 0 = Returns true.
Proof.
  eexists. split; [vm_compute; reflexivity |]. vm_compute. reflexivity.
Qed.

(** C10 on an item of a defined type.  For [type Name string], which the
    constraint [~string] admits, the type switch of [hashData] matches no
    case: with an empty proof, [VerifyProof] returns [false] against the
    SHA-256 digest of the item's bytes and [true] against the digest of
    the empty message, whatever the index. *)
Theorem C10_defined_type_item_is_hashed_as_empty (index : Z) :
  Hex.EncodeToString (Sha256.Sum256 (list_byte_of_string "x")) =
    "2d711642b726b04401627ca9fbac32f5c8530fb1903cc4db02258717921a4881"%string /\
  VerifyProof (MkDefined "x"%string) []
    "2d711642b726b04401627ca9fbac32f5c8530fb1903cc4db02258717921a4881"%string
    index = Returns false /\
  VerifyProof (MkDefined "x"%string) []
    "e3b0c44298fc1c149afbf4c8996fb92427ae41e4649b934ca495991b7852b855"%string
    index = Returns true.
Proof.
  split; [vm_compute; reflexivity |].
  unfold VerifyProof. cbn [fold_proof mbind outcome_bind].
  split; vm_compute; reflexivity.
Qed.

Lemma hashData_string (data : string) :
  hashData data =
    Hex.EncodeToString (Sha256.Sum256 (list_byte_of_string data)).
Proof. reflexivity. Qed.

Lemma hashData_bytes (data : list byte) :
  hashData data = Hex.EncodeToString (Sha256.Sum256 data).
Proof. reflexivity. Qed.

(** For an item of type [string] or [[]byte] and an empty proof,
    [VerifyProof] returns [true] exactly when the SHA-256 digest of the
    item's bytes, in hex, is the root, whatever the index. *)
Lemma empty_proof_on_string (data : string) (rootHash : string) (index : Z) :
  VerifyProof data [] rootHash index = Returns true <->
  Hex.EncodeToString (Sha256.Sum256 (list_byte_of_string data)) = rootHash.
Proof.
  rewrite <- hashData_string. apply empty_proof_ignores_index.
Qed.

Lemma empty_proof_on_bytes (data : list byte) (rootHash : string) (index : Z) :
  VerifyProof data [] rootHash index = Returns true <->
  Hex.EncodeToString (Sha256.Sum256 data) = rootHash.
Proof.
  rewrite <- hashData_bytes. apply empty_proof_ignores_index.
Qed.

(* ================================================================= *)
(** ** Further properties: the index in verification *)

Lemma recombine_bounded (proof : list string) :
  forall (hash : string) (index : Z),
    0 <= index <= Int.max_int ->
    recombine proof hash index =
      recombine proof hash (index mod 2 ^ Z.of_nat (length proof)).
Proof.
  induction proof as [| siblingHash rest IH]; intros hash index Hindex.
  - reflexivity.
  - cbn [recombine length].
    rewrite Nat2Z.inj_succ, Z.pow_succ_r by lia.
    pose proof (Z.pow_pos_nonneg 2 (Z.of_nat (length rest)) ltac:(lia) ltac:(lia))
      as Hq.
    set (q := 2 ^ Z.of_nat (length rest)) in *.
    rewrite (Z.rem_mul_r index 2 q) by lia.
    pose proof (Z.mod_pos_bound (index / 2) q Hq) as Hhigh.
    pose proof (Z.mod_pos_bound index 2 ltac:(lia)) as Hlow.
    set (low := index mod 2) in *. set (high := (index / 2) mod q) in *.
    assert (Hhalf : index / 2 <= Int.max_int)
      by (unfold Int.max_int in *; divs).
    assert (Hsmall : 0 <= low + 2 * high <= Int.max_int).
    { assert (low + 2 * high <= index); [| lia].
      unfold low, high. rewrite <- (Z.rem_mul_r index 2 q) by lia.
      apply Z.mod_le; lia. }
    rewrite !rem_two_nonneg by lia.
    rewrite !Z.quot_div_nonneg by lia.
    replace ((low + 2 * high) mod 2) with low by divs.
    replace ((low + 2 * high) / 2) with high by divs.
    fold low.
    rewrite !wrap_small by (unfold Int.min_int, Int.max_int in *; divs).
    rewrite (IH _ (index / 2)) by (unfold Int.max_int in *; divs).
    rewrite (IH _ high) by lia.
    fold high. rewrite (Z.mod_small high q) by lia. reflexivity.
Qed.

Lemma recombine_opp_nonneg (proof : list string) :
  forall (hash : string) (index : Z),
    0 <= index <= Int.max_int ->
    recombine proof hash (- index) = recombine proof hash index.
Proof.
  induction proof as [| siblingHash rest IH]; intros hash index Hindex.
  - reflexivity.
  - cbn [recombine].
    rewrite Z.rem_opp_l, Z.quot_opp_l by lia.
    rewrite rem_two_nonneg, Z.quot_div_nonneg by lia.
    rewrite (wrap_small (- (index / 2)))
      by (unfold Int.min_int, Int.max_int in *; divs).
    rewrite (wrap_small (index / 2))
      by (unfold Int.min_int, Int.max_int in *; divs).
    rewrite IH by (unfold Int.max_int in *; divs).
    destruct (Z.eqb_spec (- (index mod 2)) 0), (Z.eqb_spec (index mod 2) 0);
      try reflexivity; lia.
Qed.

(* ================================================================= *)
(** ** Further properties: the nodes array *)

Lemma look_of_nat {A : Type} (s : list A) (k : nat) :
  look s (Z.of_nat k) = s !! k.
Proof. unfold look. now rewrite Nat2Z.id. Qed.

Section Determined.

Context {T T' : Type} `{Hashable T} `{Hashable T'}.
Variables (data : list T) (data' : list T') (P : Z).
Variables (t : Tree T) (t' : Tree T').
Hypothesis padded_positive : 1 <= P.
Hypothesis tree_built : built data P t.
Hypothesis tree_built' : built data' P t'.
Hypothesis same_leaves :
  forall j, 0 <= j < P -> leaf_digest data j = leaf_digest data' j.

Lemma nodes_agree_from (d : nat) :
  forall i, 0 <= i -> 2 * P - 2 - Z.of_nat d <= i < 2 * P - 1 ->
            look (Nodes t) i = look (Nodes t') i.
Proof.
  destruct tree_built as [_ _ _ Hlen Hleaves Hinner].
  destruct tree_built' as [_ _ _ Hlen' Hleaves' Hinner'].
  assert (Hleaf : forall i, P - 1 <= i < 2 * P - 1 ->
                    look (Nodes t) i = look (Nodes t') i).
  { intros i Hi. replace i with (P - 1 + (i - (P - 1))) by lia.
    rewrite Hleaves, Hleaves' by lia. apply same_leaves. lia. }
  induction d as [| d IH]; intros i Hi Hrange.
  - apply Hleaf. lia.
  - destruct (Z.lt_ge_cases i (P - 1)) as [Hin | Hout]; [| apply Hleaf; lia].
    destruct (Hinner i ltac:(lia)) as (l & r & Hl & Hr & ->).
    destruct (Hinner' i ltac:(lia)) as (l' & r' & Hl' & Hr' & ->).
    rewrite IH in Hl, Hr by lia.
    assert (l = l') as -> by congruence.
    assert (r = r') as -> by congruence.
    reflexivity.
Qed.

(** Two trees with the same number of leaf slots and the same digests in
    them have the same nodes. *)
Lemma nodes_determined : Nodes t = Nodes t'.
Proof.
  pose proof tree_built as [_ _ _ Hlen _ _].
  pose proof tree_built' as [_ _ _ Hlen' _ _].
  apply list_eq. intros k.
  destruct (Nat.lt_ge_cases k (Z.to_nat (2 * P - 1))) as [Hin | Hout].
  - rewrite <- !look_of_nat.
    apply (nodes_agree_from (Z.to_nat (2 * P - 2))); lia.
  - unfold Slice.len in *.
    rewrite !lookup_ge_None_2 by lia. reflexivity.
Qed.

End Determined.

Lemma digit_lower_hex (b : byte) :
  lower_hex_digit (Hex.digit (Sha256.byte_to_Z b / 16)) = true /\
  lower_hex_digit (Hex.digit (Sha256.byte_to_Z b mod 16)) = true.
Proof. destruct b; vm_compute; auto. Qed.

Lemma EncodeToString_lower_hex (bs : list byte) :
  Forall (fun c => lower_hex_digit c = true)
         (list_ascii_of_string (Hex.EncodeToString bs)).
Proof.
  induction bs as [| b rest IH]; [constructor |].
  cbn [Hex.EncodeToString list_ascii_of_string].
  destruct (digit_lower_hex b) as [Hhigh Hlow].
  constructor; [assumption |]. constructor; assumption.
Qed.

Lemma hashData_hex_digest {T : Type} `{Hashable T} (data : T) :
  hex_digest (hashData data).
Proof.
  split; [apply hashData_length |].
  unfold hashData. apply EncodeToString_lower_hex.
Qed.

Lemma hashNodes_hex_digest (l r : string) : hex_digest (hashNodes l r).
Proof.
  split; [apply hashNodes_length |].
  unfold hashNodes. apply EncodeToString_lower_hex.
Qed.

Lemma node_hex_digest {T : Type} `{Hashable T}
    (data : list T) (P : Z) (t : Tree T) (j : Z) (v : string) :
  built data P t -> 0 <= j -> look (Nodes t) j = Some v -> hex_digest v.
Proof.
  intros [_ _ _ Hlen Hleaves Hinner] Hj Hv.
  pose proof (look_Some_range _ _ _ Hj Hv) as Hrange.
  destruct (Z.lt_ge_cases j (P - 1)) as [Hin | Hleaf].
  - destruct (Hinner j ltac:(lia)) as (l & r & _ & _ & Hnode).
    rewrite Hnode in Hv. injection Hv as <-. apply hashNodes_hex_digest.
  - replace j with (P - 1 + (j - (P - 1))) in Hv by lia.
    rewrite Hleaves in Hv by lia. unfold leaf_digest in Hv.
    destruct (look data _) as [item |]; [| discriminate].
    injection Hv as <-. apply hashData_hex_digest.
Qed.

(* ================================================================= *)
(** ** Further properties: the levels of the tree *)

Lemma segment_lookup (nodes : list string) (from count : Z) (j : nat) :
  0 <= from -> (j < Z.to_nat count)%nat ->
  segment nodes from count !! j = look nodes (from + Z.of_nat j).
Proof.
  intros Hfrom Hj. unfold segment, look.
  rewrite lookup_take_lt by assumption. rewrite lookup_drop.
  f_equal. lia.
Qed.

Lemma segment_length (nodes : list string) (from count : Z) :
  0 <= from -> 0 <= count -> from + count <= Slice.len nodes ->
  length (segment nodes from count) = Z.to_nat count.
Proof.
  intros Hfrom Hcount Hlen. unfold segment, Slice.len in *.
  rewrite length_take, length_drop. lia.
Qed.

(** A level whose nodes are the hashes of the pairs of the level below is
    [pair_up] of that level. *)
Lemma pair_up_unique (upper : list string) :
  forall lower : list string,
    length lower = (2 * length upper)%nat ->
    (forall j : nat,
        (j < length upper)%nat ->
        exists l r,
          lower !! (2 * j)%nat = Some l /\
          lower !! (2 * j + 1)%nat = Some r /\
          upper !! j = Some (hashNodes l r)) ->
    upper = pair_up lower.
Proof.
  induction upper as [| u upper IH]; intros lower Hlen Hpairs.
  - destruct lower; [reflexivity | discriminate].
  - destruct lower as [| b0 [| b1 lower]];
      [simpl in Hlen; lia | simpl in Hlen; lia |].
    change (pair_up (b0 :: b1 :: lower))
      with (hashNodes b0 b1 :: pair_up lower).
    f_equal.
    + destruct (Hpairs 0%nat ltac:(simpl; lia)) as (l & r & Hl & Hr & Hu).
      change ((b0 :: b1 :: lower) !! (2 * 0)%nat) with (Some b0) in Hl.
      change ((b0 :: b1 :: lower) !! (2 * 0 + 1)%nat) with (Some b1) in Hr.
      change ((u :: upper) !! 0%nat) with (Some u) in Hu.
      congruence.
    + apply IH; [simpl in Hlen; lia |].
      intros j Hj.
      destruct (Hpairs (S j) ltac:(simpl; lia)) as (l & r & Hl & Hr & Hu).
      replace (2 * S j)%nat with (S (S (2 * j))) in Hl by lia.
      replace (2 * S j + 1)%nat with (S (S (2 * j + 1))) in Hr by lia.
      exists l, r. auto.
Qed.

Section Levels.

Variables (nodes : list string) (k : nat).
Hypothesis nodes_inner : inner_from (2 ^ Z.of_nat k - 1) 0 nodes.
Hypothesis nodes_len : Slice.len nodes = 2 * 2 ^ Z.of_nat k - 1.

Lemma level_pair_up (d : nat) :
  (d < k)%nat ->
  segment nodes (2 ^ Z.of_nat d - 1) (2 ^ Z.of_nat d) =
    pair_up (segment nodes (2 ^ Z.of_nat (S d) - 1) (2 ^ Z.of_nat (S d))).
Proof.
  intros Hd.
  pose proof (Z.pow_pos_nonneg 2 (Z.of_nat d) ltac:(lia) ltac:(lia)) as Hq.
  pose proof (Z.pow_le_mono_r 2 (Z.of_nat (S d)) (Z.of_nat k) ltac:(lia) ltac:(lia))
    as Hle.
  rewrite Nat2Z.inj_succ, Z.pow_succ_r in * by lia.
  set (q := 2 ^ Z.of_nat d) in *. set (p := 2 ^ Z.of_nat k) in *.
  apply pair_up_unique.
  - rewrite !segment_length by lia. lia.
  - rewrite segment_length by lia. intros j Hj.
    destruct (nodes_inner (q - 1 + Z.of_nat j)) as (l & r & Hl & Hr & Hnode);
      [lia |].
    exists l, r.
    rewrite !segment_lookup by lia.
    replace (2 * q - 1 + Z.of_nat (2 * j)) with (2 * (q - 1 + Z.of_nat j) + 1)
      by lia.
    replace (2 * q - 1 + Z.of_nat (2 * j + 1)) with (2 * (q - 1 + Z.of_nat j) + 2)
      by lia.
    auto.
Qed.

(** Pairing up the leaf level [d] times gives the level [d] levels up. *)
Lemma iter_pair_up (d : nat) :
  forall j : nat,
    (d + j = k)%nat ->
    Nat.iter d pair_up (segment nodes (2 ^ Z.of_nat k - 1) (2 ^ Z.of_nat k)) =
      segment nodes (2 ^ Z.of_nat j - 1) (2 ^ Z.of_nat j).
Proof.
  induction d as [| d IH]; intros j Hj.
  - assert (j = k) as -> by lia. reflexivity.
  - rewrite Nat.iter_succ. rewrite (IH (S j)) by lia.
    symmetry. apply level_pair_up. lia.
Qed.

End Levels.

Section PaddedLeaves.

Context {T : Type} `{Hashable T}.
Variables (data : list T) (P : Z) (t : Tree T).
Hypothesis count_le_padded : 1 <= Slice.len data <= P.
Hypothesis tree_built : built data P t.

Lemma padded_leaves_lookup (j : nat) :
  (j < Z.to_nat P)%nat ->
  padded_leaves data P !! j = leaf_digest data (Z.of_nat j).
Proof.
  intros Hj. unfold padded_leaves, leaf_digest, look, Slice.len in *.
  destruct (look_in_range data (Slice.len data - 1)) as [item Hitem];
    [unfold Slice.len; lia |].
  unfold look, Slice.len in Hitem.
  rewrite last_lookup.
  replace (Init.Nat.pred (length data)) with (Z.to_nat (Z.of_nat (length data) - 1))
    by lia.
  rewrite Hitem.
  destruct (Z.ltb_spec (Z.of_nat j) (Z.of_nat (length data))) as [Hreal | Hpad].
  - rewrite lookup_app_l by (rewrite length_map; lia).
    rewrite Nat2Z.id. apply list_lookup_fmap.
  - rewrite lookup_app_r by (rewrite length_map; lia).
    rewrite length_map. rewrite lookup_replicate_2 by lia.
    rewrite Hitem. reflexivity.
Qed.

Lemma padded_leaves_length : length (padded_leaves data P) = Z.to_nat P.
Proof.
  unfold padded_leaves, Slice.len in *.
  destruct (look_in_range data (Slice.len data - 1)) as [item Hitem];
    [unfold Slice.len; lia |].
  unfold look, Slice.len in Hitem.
  rewrite last_lookup.
  replace (Init.Nat.pred (length data)) with (Z.to_nat (Z.of_nat (length data) - 1))
    by lia.
  rewrite Hitem, length_app, length_map, length_replicate. lia.
Qed.

(** The leaf level of the array. *)
Lemma leaves_segment : segment (Nodes t) (P - 1) P = padded_leaves data P.
Proof.
  destruct tree_built as [_ _ _ Hlen Hleaves _].
  apply list_eq. intros j.
  destruct (Nat.lt_ge_cases j (Z.to_nat P)) as [Hin | Hout].
  - rewrite segment_lookup by lia. rewrite padded_leaves_lookup by assumption.
    apply Hleaves. lia.
  - rewrite !lookup_ge_None_2; [reflexivity | |].
    + rewrite padded_leaves_length. lia.
    + rewrite segment_length by lia. lia.
Qed.

End PaddedLeaves.

(* ================================================================= *)
(** ** Further properties: equal trees *)

Lemma GetRoot_nodes {T T' : Type} (t : Tree T) (t' : Tree T') :
  Nodes t = Nodes t' -> GetRoot t = GetRoot t'.
Proof. intros Hnodes. unfold GetRoot. now rewrite Hnodes. Qed.

Section Repeated.

Context {T : Type} `{Hashable T}.
Variables (data : list T) (item : T) (m : nat).
Hypothesis data_last : last data = Some item.

Lemma repeated_len :
  Slice.len (data ++ replicate m item) = Slice.len data + Z.of_nat m.
Proof. unfold Slice.len. rewrite length_app, length_replicate. lia. Qed.

Lemma last_nonempty : 1 <= Slice.len data.
Proof.
  unfold Slice.len. destruct data; [discriminate data_last | simpl; lia].
Qed.

Lemma repeated_look_old (i : Z) :
  0 <= i < Slice.len data ->
  look (data ++ replicate m item) i = look data i.
Proof.
  unfold look, Slice.len. intros Hi. apply lookup_app_l. lia.
Qed.

Lemma look_last : look data (Slice.len data - 1) = Some item.
Proof.
  unfold look, Slice.len. rewrite <- data_last, last_lookup.
  f_equal. lia.
Qed.

Lemma repeated_look_new (i : Z) :
  Slice.len data - 1 <= i < Slice.len data + Z.of_nat m ->
  look (data ++ replicate m item) i = Some item.
Proof.
  pose proof last_nonempty as Hn. intros Hi.
  destruct (Z.lt_ge_cases i (Slice.len data)) as [Hold | Hnew].
  - rewrite repeated_look_old by lia.
    replace i with (Slice.len data - 1) by lia. apply look_last.
  - unfold look, Slice.len in *. rewrite lookup_app_r by lia.
    apply lookup_replicate_2. lia.
Qed.

(** The leaf slots of the tree do not tell the items that repeat the
    last one from the padding. *)
Lemma repeated_leaf_digest (j : Z) :
  0 <= j ->
  leaf_digest (data ++ replicate m item) j = leaf_digest data j.
Proof.
  pose proof last_nonempty as Hn. intros Hj.
  unfold leaf_digest. rewrite repeated_len.
  destruct (Z.ltb_spec j (Slice.len data + Z.of_nat m)) as [Hin | Hout];
    destruct (Z.ltb_spec j (Slice.len data)) as [Hreal | Hpad]; try lia.
  - now rewrite repeated_look_old by lia.
  - rewrite repeated_look_new by lia. now rewrite look_last.
  - rewrite repeated_look_new by lia. now rewrite look_last.
Qed.

End Repeated.

Lemma hashData_defined {U : Type} `{Hashable U} (item : Defined U) :
  hashData item = Hex.EncodeToString (Sha256.Sum256 []).
Proof. reflexivity. Qed.

Lemma segment_root (nodes : list string) (root : string) :
  look nodes 0 = Some root -> segment nodes 0 1 = [root].
Proof.
  unfold look, segment. change (Z.to_nat 0) with 0%nat.
  change (Z.to_nat 1) with 1%nat. intros Hroot.
  destruct nodes as [| first rest]; [discriminate |].
  injection Hroot as ->. reflexivity.
Qed.

(* ================================================================= *)
(** ** Further properties: printing *)

Lemma descends_le (i j : Z) : 0 <= i -> descends i j -> i <= j.
Proof. intros Hi Hd. induction Hd; lia. Qed.

Lemma descends_trans (a b c : Z) : descends a b -> descends b c -> descends a c.
Proof.
  intros Hab Hbc. induction Hbc; [assumption | |].
  - now apply descends_left.
  - now apply descends_right.
Qed.

Lemma descends_top (i j : Z) :
  descends i j -> j = i \/ descends (2 * i + 1) j \/ descends (2 * i + 2) j.
Proof.
  intros Hd. induction Hd as [| j Hd IH | j Hd IH].
  - now left.
  - right. destruct IH as [-> | [IH | IH]].
    + left. apply descends_self.
    + left. now apply descends_left.
    + right. now apply descends_left.
  - right. destruct IH as [-> | [IH | IH]].
    + right. apply descends_self.
    + left. now apply descends_right.
    + right. now apply descends_right.
Qed.

(** The last step of a descent. *)
Lemma descends_parent (a j : Z) :
  descends a j -> j = a \/ descends a ((j - 1) / 2).
Proof.
  intros Hd. destruct Hd as [| k Hd | k Hd].
  - now left.
  - right. replace ((2 * k + 1 - 1) / 2) with k by divs. assumption.
  - right. replace ((2 * k + 2 - 1) / 2) with k by divs. assumption.
Qed.

(** The nodes above a node form a chain. *)
Lemma descends_chain (a b j : Z) :
  0 <= b -> descends a j -> descends b j -> a <= b -> descends a b.
Proof.
  intros Hb Ha Hbj Hle. induction Hbj as [| k Hbk IH | k Hbk IH].
  - assumption.
  - pose proof (descends_le b k Hb Hbk).
    destruct (descends_parent a _ Ha) as [Heq | Hup]; [lia |].
    replace ((2 * k + 1 - 1) / 2) with k in Hup by divs. now apply IH.
  - pose proof (descends_le b k Hb Hbk).
    destruct (descends_parent a _ Ha) as [Heq | Hup]; [lia |].
    replace ((2 * k + 2 - 1) / 2) with k in Hup by divs. now apply IH.
Qed.

(** Nothing lies below both children of a node. *)
Lemma descends_apart (i j : Z) :
  0 <= i -> descends (2 * i + 1) j -> descends (2 * i + 2) j -> False.
Proof.
  intros Hi Hleft Hright.
  pose proof (descends_chain (2 * i + 1) (2 * i + 2) j ltac:(lia)
                Hleft Hright ltac:(lia)) as Hd.
  destruct (descends_parent _ _ Hd) as [Heq | Hup]; [lia |].
  replace ((2 * i + 2 - 1) / 2) with i in Hup by divs.
  pose proof (descends_le (2 * i + 1) i ltac:(lia) Hup). lia.
Qed.

(** Every node lies below the root. *)
Lemma descends_root (j : Z) : 0 <= j -> descends 0 j.
Proof.
  intros Hj. remember (Z.to_nat j) as size eqn:Hsize.
  revert j Hj Hsize.
  induction size as [size IH] using lt_wf_ind. intros j Hj Hsize.
  destruct (Z.eq_dec j 0) as [-> | Hpos]; [apply descends_self |].
  assert (Hup : descends 0 ((j - 1) / 2)).
  { apply (IH (Z.to_nat ((j - 1) / 2))); [subst size; divs | divs | reflexivity]. }
  destruct (Z.eq_dec (j mod 2) 1) as [Hodd | Heven].
  - replace j with (2 * ((j - 1) / 2) + 1) by divs. now apply descends_left.
  - replace j with (2 * ((j - 1) / 2) + 2) by divs. now apply descends_right.
Qed.

Lemma print_order_elem (fuel : nat) :
  forall n i j : Z,
    0 <= i -> (Z.to_nat (n - i) <= fuel)%nat ->
    j ∈ print_order fuel n i <-> descends i j /\ j < n.
Proof.
  induction fuel as [| fuel IH]; intros n i j Hi Hfuel; cbn [print_order];
    destruct (Z.geb_spec i n) as [Hout | Hin]; try lia.
  - split; [intros Hj; inversion Hj |].
    intros [Hd Hj]. pose proof (descends_le i j Hi Hd). lia.
  - split; [intros Hj; inversion Hj |].
    intros [Hd Hj]. pose proof (descends_le i j Hi Hd). lia.
  - rewrite elem_of_cons, elem_of_app.
    rewrite (IH n (2 * i + 2)), (IH n (2 * i + 1)) by lia.
    split.
    + intros [-> | [[Hd Hj] | [Hd Hj]]].
      * split; [apply descends_self | lia].
      * split; [| assumption].
        apply (descends_trans i (2 * i + 2) j); [| assumption].
        apply descends_right, descends_self.
      * split; [| assumption].
        apply (descends_trans i (2 * i + 1) j); [| assumption].
        apply descends_left, descends_self.
    + intros [Hd Hj]. destruct (descends_top i j Hd) as [-> | [Hl | Hr]]; auto.
Qed.

Lemma print_order_NoDup (fuel : nat) :
  forall n i : Z,
    0 <= i -> (Z.to_nat (n - i) <= fuel)%nat -> NoDup (print_order fuel n i).
Proof.
  induction fuel as [| fuel IH]; intros n i Hi Hfuel; cbn [print_order];
    destruct (Z.geb_spec i n) as [Hout | Hin]; try apply NoDup_nil_2.
  apply NoDup_cons. split.
  - rewrite elem_of_app.
    rewrite (print_order_elem fuel n (2 * i + 2)),
            (print_order_elem fuel n (2 * i + 1)) by lia.
    intros [[Hd _] | [Hd _]].
    + pose proof (descends_le (2 * i + 2) i ltac:(lia) Hd). lia.
    + pose proof (descends_le (2 * i + 1) i ltac:(lia) Hd). lia.
  - apply NoDup_app. split; [apply IH; lia |]. split; [| apply IH; lia].
    intros j.
    rewrite (print_order_elem fuel n (2 * i + 2)),
            (print_order_elem fuel n (2 * i + 1)) by lia.
    intros [Hr _] [Hl _]. exact (descends_apart i j Hi Hl Hr).
Qed.

(** From the root, every node of the array comes up once. *)
Lemma print_order_all (n : Z) :
  0 <= n -> print_order (Z.to_nat n) n 0 ≡ₚ seqZ 0 n.
Proof.
  intros Hn. apply NoDup_Permutation.
  - apply print_order_NoDup; lia.
  - apply NoDup_seqZ.
  - intros j. rewrite print_order_elem by lia. rewrite elem_of_seqZ.
    split.
    + intros [Hd Hj]. pose proof (descends_le 0 j ltac:(lia) Hd). lia.
    + intros Hj. split; [apply descends_root; lia | lia].
Qed.

Section PrintLines.

Context {T : Type}.
Variable t : Tree T.
Hypothesis nodes_small : Slice.len (Nodes t) < 2 ^ 62.
Hypothesis nodes_wide :
  forall i node, look (Nodes t) i = Some node ->
                 (8 <= String.length node)%nat.

Lemma printNode_beyond (fuel : nat) (index : Z) (prefix : string)
    (isTail : bool) (stdout : list string) :
  Slice.len (Nodes t) <= index ->
  printNode fuel t index prefix isTail stdout = Returns stdout.
Proof.
  intros Hout. destruct fuel; cbn [printNode];
    destruct (Z.geb_spec index (Slice.len (Nodes t))); (reflexivity || lia).
Qed.

Lemma printNode_lines (fuel : nat) :
  forall (index : Z) (prefix : string) (isTail : bool) (stdout : list string),
    0 <= index ->
    (Z.to_nat (Slice.len (Nodes t) - index) <= fuel)%nat ->
    exists lines,
      printNode fuel t index prefix isTail stdout = Returns (stdout ++ lines) /\
      Forall2 (line_of (Nodes t))
              (print_order fuel (Slice.len (Nodes t)) index) lines /\
      (forall node,
          look (Nodes t) index = Some node ->
          head lines =
            Some (prefix ++
                  (if negb isTail then "├── " else "└── ") ++
                  (substring 0 8 node ++ "..."))%string).
Proof.
  induction fuel as [| fuel IH]; intros index prefix isTail stdout Hindex Hfuel;
    cbn [printNode print_order];
    destruct (Z.geb_spec index (Slice.len (Nodes t))) as [Hout | Hin];
    try lia.
  - exists []. rewrite app_nil_r. split; [reflexivity |].
    split; [constructor |]. intros node Hnode.
    pose proof (look_Some_range _ _ _ Hindex Hnode). lia.
  - exists []. rewrite app_nil_r. split; [reflexivity |].
    split; [constructor |]. intros node Hnode.
    pose proof (look_Some_range _ _ _ Hindex Hnode). lia.
  - destruct (look_in_range (Nodes t) index ltac:(lia)) as [node Hnode].
    pose proof (nodes_wide index node Hnode) as Hwide.
    rewrite (get_look (Nodes t) index node Hindex Hnode).
    cbn [mbind outcome_bind]. unfold string_upto.
    destruct (Z.leb_spec 8 (Z.of_nat (String.length node))); [| lia].
    cbn [Z.leb andb mbind outcome_bind]. simpl (0 <=? 8).
    cbn [andb mbind outcome_bind].
    change (Z.to_nat 8) with 8%nat. unwrap.
    set (line := (prefix ++
                  (if negb isTail then "├── " else "└── ") ++
                  (substring 0 8 node ++ "..."))%string).
    set (deeper := (prefix ++ (if negb isTail then "│   " else "    "))%string).
    destruct (IH (2 * index + 2) deeper false (stdout ++ [line]))
      as (right_lines & Hright & Hright_lines & _); [lia | lia |].
    destruct (IH (2 * index + 1) deeper true ((stdout ++ [line]) ++ right_lines))
      as (left_lines & Hleft & Hleft_lines & _); [lia | lia |].
    exists (line :: right_lines ++ left_lines). split; [| split].
    + assert (Hcalls :
        (printNode fuel t (2 * index + 2) deeper false (stdout ++ [line])
           ≫= printNode fuel t (2 * index + 1) deeper true) =
        Returns (stdout ++ line :: right_lines ++ left_lines)).
      { rewrite Hright. cbn [mbind outcome_bind]. rewrite Hleft.
        f_equal. rewrite <- !app_assoc. reflexivity. }
      destruct (Z.ltb_spec (2 * index + 1) (Slice.len (Nodes t))) as [Hl | Hl];
        destruct (Z.ltb_spec (2 * index + 2) (Slice.len (Nodes t))) as [Hr | Hr];
        cbn [orb]; try lia.
      * exact Hcalls.
      * rewrite <- Hcalls.
        rewrite (printNode_beyond fuel (2 * index + 2)) by lia.
        reflexivity.
      * rewrite <- Hcalls.
        rewrite (printNode_beyond fuel (2 * index + 2)) by lia.
        cbn [mbind outcome_bind].
        rewrite (printNode_beyond fuel (2 * index + 1)) by lia.
        reflexivity.
    + constructor.
      * exists prefix, (if negb isTail then "├── " else "└── ")%string, node.
        split; [destruct isTail; auto |]. split; [assumption | reflexivity].
      * apply Forall2_app; assumption.
    + intros node' Hnode'. assert (node' = node) as -> by congruence.
      reflexivity.
Qed.

End PrintLines.

(** What [climb] returns begins with the digests it was given. *)
Lemma climb_extends (fuel : nat) :
  forall (nodes : list string) (c : Z) (acc proof : list string),
    climb fuel nodes c acc = Returns proof -> exists rest, proof = acc ++ rest.
Proof.
  induction fuel as [| fuel IH]; intros nodes c acc proof; cbn [climb];
    destruct (Z.gtb_spec c 0) as [Hpos | Hzero].
  - discriminate.
  - intros [= <-]. exists []. now rewrite app_nil_r.
  - rewrite rem_two. cbn [mbind outcome_bind].
    destruct (Slice.get nodes _) as [sibling | |]; cbn [mbind outcome_bind];
      try discriminate.
    destruct (Int.quo _ 2) as [parent | |]; cbn [mbind outcome_bind];
      try discriminate.
    intros Hclimb. destruct (IH _ _ _ _ Hclimb) as [rest ->].
    exists (sibling :: rest). now rewrite <- app_assoc.
  - intros [= <-]. exists []. now rewrite app_nil_r.
Qed.

(* ================================================================= *)
(** ** Further properties of the package *)

(** X1.  For every [n] up to [2^32], also zero and negative ones,
    [nextPowerOfTwo n] is a power of two, is at least [n], and is the
    smallest such power of two. *)
Theorem X1_nextPowerOfTwo_smallest_power (n : Z) :
  n <= 2 ^ 32 ->
  is_power_of_two (nextPowerOfTwo n) /\
  n <= nextPowerOfTwo n /\
  (forall p, is_power_of_two p -> n <= p -> nextPowerOfTwo n <= p).
Proof.
  intros Hn. destruct (Z.le_gt_cases n 0) as [Hle | Hpos].
  - unfold nextPowerOfTwo. destruct (Z.leb_spec n 0); [| lia].
    split; [| split].
    + exists 0. split; [lia | reflexivity].
    + lia.
    + intros p (k & Hk & ->) _.
      pose proof (Z.pow_pos_nonneg 2 k ltac:(lia) Hk). lia.
  - apply nextPowerOfTwo_smallest. lia.
Qed.

Lemma X1_witness :
  is_power_of_two (nextPowerOfTwo 5) /\
  5 <= nextPowerOfTwo 5 /\
  (forall p, is_power_of_two p -> 5 <= p -> nextPowerOfTwo 5 <= p).
Proof. apply (X1_nextPowerOfTwo_smallest_power 5). lia. Defined.

Section Further.

Context {T : Type} `{Hashable T}.

(** X2.  A slice whose length is a power of two up to [2^32] is not
    padded: the leaves start at [len - 1] and the tree has [2*len - 1]
    nodes. *)
Theorem X2_power_of_two_length_is_not_padded
    (data : list T) (t : Tree T) (k : Z) :
  0 <= k <= 32 ->
  Slice.len data = 2 ^ k ->
  NewTree data = Returns (Some t, None) ->
  nextPowerOfTwo (Slice.len data) = Slice.len data /\
  LeafOffset t = Slice.len data - 1 /\
  Slice.len (Nodes t) = 2 * Slice.len data - 1.
Proof.
  intros Hk Hlen Hnew.
  pose proof (Z.pow_le_mono_r 2 k 32 ltac:(lia) ltac:(lia)) as Hle.
  destruct (padded_count_upto_2_32 data t ltac:(lia) Hnew)
    as (Hpadded & _ & _ & _ & Hfixed & Hnodes).
  assert (Hpow : is_power_of_two (Slice.len data)) by (exists k; split; lia).
  specialize (Hfixed Hpow). repeat split; lia.
Qed.

(** X3.  Round trip for a slice of up to [2^32] items: the proof that
    [GetProof] returns for an item verifies against the root, with the
    item and its index. *)
Theorem X3_round_trip_upto_2_32
    (data : list T) (t : Tree T) (index : Z) (item : T) :
  Slice.len data <= 2 ^ 32 ->
  NewTree data = Returns (Some t, None) ->
  0 <= index -> look data index = Some item ->
  exists proof,
    GetProof t index = Returns (proof, None) /\
    VerifyProof item proof (GetRoot t) index = Returns true.
Proof.
  intros Hlen Hnew Hindex Hitem.
  destruct (round_trip_upto_2_32 data t index item Hlen Hnew Hindex Hitem)
    as (proof & Hproof & _ & _ & Hverify).
  exists proof. split; assumption.
Qed.

(** X4.  For a slice of up to [2^32] items, every proof that [GetProof]
    returns without error has as many digests as the tree has levels
    above the leaves: two to that number is the number of leaf slots. *)
Theorem X4_proof_length_upto_2_32
    (data : list T) (t : Tree T) (index : Z) (proof : list string) :
  Slice.len data <= 2 ^ 32 ->
  NewTree data = Returns (Some t, None) ->
  GetProof t index = Returns (proof, None) ->
  2 ^ Z.of_nat (length proof) = LeafOffset t + 1 /\
  LeafOffset t + 1 = nextPowerOfTwo (Slice.len data).
Proof.
  intros Hlen Hnew Hproof.
  pose proof (addressable_upto data Hlen) as Haddr.
  destruct (built_of_NewTree data t Haddr Hnew) as [Hne Hbuilt].
  destruct (padded_range data Hne Haddr) as [Hn HP].
  assert (Hindex : 0 <= index < Slice.len data).
  { destruct (Z.lt_ge_cases index 0) as [Hneg | Hpos];
      [| destruct (Z.lt_ge_cases index (Slice.len data)) as [Hin | Hout]];
      [| lia |];
      rewrite (GetProof_out_of_range data _ t Hbuilt index) in Hproof
        by lia; discriminate Hproof. }
  destruct (look_in_range data index Hindex) as [item Hitem].
  destruct (round_trip_upto_2_32 data t index item Hlen Hnew ltac:(lia) Hitem)
    as (proof' & Hproof' & Hlength & Hpow & _).
  rewrite Hproof in Hproof'. injection Hproof' as <-.
  destruct Hbuilt as [_ Hoffset _ _ _ _].
  rewrite Hlength, Hoffset, Hpow. lia.
Qed.

(** X5.  In a tree that [NewTree] returns, the leaf slot of every item
    holds the digest of that item. *)
Theorem X5_leaf_slot_holds_item_digest
    (data : list T) (t : Tree T) (index : Z) (item : T) :
  Slice.addressable data ->
  NewTree data = Returns (Some t, None) ->
  0 <= index -> look data index = Some item ->
  look (Nodes t) (LeafOffset t + index) = Some (hashData item).
Proof.
  intros Haddr Hnew Hindex Hitem.
  pose proof (look_Some_range data index item Hindex Hitem) as Hlt.
  destruct (built_of_NewTree data t Haddr Hnew) as [Hne Hbuilt].
  destruct (padded_range data Hne Haddr) as [Hn HP].
  destruct Hbuilt as [_ Hoffset _ _ Hleaves _].
  rewrite Hoffset, Hleaves by lia.
  apply leaf_digest_item; [lia | assumption].
Qed.

(** X6.  The fields of a tree that [NewTree] returns: [LeafData] is the
    input, [LeafCount] its length, [LeafOffset] one less than the padded
    leaf count, which is at least the length, and [Nodes] has
    [2 * LeafOffset + 1] entries. *)
Theorem X6_fields_of_the_tree (data : list T) (t : Tree T) :
  Slice.addressable data ->
  NewTree data = Returns (Some t, None) ->
  LeafData t = data /\
  LeafCount t = Slice.len data /\
  LeafOffset t = nextPowerOfTwo (Slice.len data) - 1 /\
  1 <= LeafCount t <= LeafOffset t + 1 /\
  Slice.len (Nodes t) = 2 * LeafOffset t + 1.
Proof.
  intros Haddr Hnew.
  destruct (built_of_NewTree data t Haddr Hnew) as [Hne Hbuilt].
  destruct (padded_range data Hne Haddr) as [Hn HP].
  destruct Hbuilt as [Hcount Hoffset Hdata Hlen _ _].
  repeat split; try assumption; lia.
Qed.

(** X7.  In a tree that [NewTree] returns, every entry of [Nodes] is a
    string of 64 lower-case hexadecimal digits, and so is what [GetRoot]
    returns, which is the entry at index 0 and never the empty string. *)
Theorem X7_nodes_are_hex_digests (data : list T) (t : Tree T) :
  Slice.addressable data ->
  NewTree data = Returns (Some t, None) ->
  (forall i v, 0 <= i -> look (Nodes t) i = Some v -> hex_digest v) /\
  look (Nodes t) 0 = Some (GetRoot t) /\
  hex_digest (GetRoot t) /\
  GetRoot t <> EmptyString.
Proof.
  intros Haddr Hnew.
  destruct (built_of_NewTree data t Haddr Hnew) as [Hne Hbuilt].
  destruct (padded_range data Hne Haddr) as [Hn HP].
  assert (Hnodes : forall i v, 0 <= i -> look (Nodes t) i = Some v ->
                               hex_digest v).
  { intros i v. apply (node_hex_digest data _ t i v Hbuilt). }
  pose proof Hbuilt as [_ _ _ Hlen _ _].
  destruct (look_in_range (Nodes t) 0 ltac:(lia)) as [root Hroot].
  rewrite (GetRoot_look data _ t Hbuilt root Hroot).
  pose proof (Hnodes 0 root ltac:(lia) Hroot) as Hhex.
  split; [assumption |]. split; [assumption |]. split; [assumption |].
  intros ->. destruct Hhex as [Hlength _]. discriminate Hlength.
Qed.

(** X8.  The tree over a single item: one node, the digest of the item,
    which is the root; the proof of the item is empty and verifies. *)
Theorem X8_single_item_tree (item : T) :
  exists t,
    NewTree [item] = Returns (Some t, None) /\
    Nodes t = [hashData item] /\
    LeafData t = [item] /\ LeafOffset t = 0 /\ LeafCount t = 1 /\
    GetRoot t = hashData item /\
    GetProof t 0 = Returns ([], None) /\
    VerifyProof item [] (GetRoot t) 0 = Returns true.
Proof.
  destruct (NewTree_built [item]) as (t & Hnew & Hbuilt).
  - discriminate.
  - unfold Slice.addressable, Slice.header_size, Int.bits, Slice.len.
    simpl. lia.
  - exists t. change (nextPowerOfTwo (Slice.len [item])) with 1 in Hbuilt.
    pose proof Hbuilt as [Hcount Hoffset Hdata Hlen Hleaves _].
    assert (Hleaf : look (Nodes t) 0 = Some (hashData item)).
    { change 0 with (1 - 1 + 0) at 1. rewrite Hleaves by lia. reflexivity. }
    assert (Hnodes : Nodes t = [hashData item]).
    { unfold look, Slice.len in *. change (Z.to_nat 0) with 0%nat in Hleaf.
      destruct (Nodes t) as [| root [| other rest]];
        [discriminate | | simpl in Hlen; lia].
      injection Hleaf as ->. reflexivity. }
    assert (Hroot : GetRoot t = hashData item).
    { apply (GetRoot_look [item] 1 t Hbuilt). assumption. }
    split; [assumption |]. split; [assumption |].
    split; [assumption |]. split; [assumption |].
    split; [assumption |]. split; [assumption |].
    split.
    + unfold GetProof. rewrite Hcount, Hoffset. reflexivity.
    + rewrite Hroot. unfold VerifyProof.
      cbn [fold_proof mbind outcome_bind]. now rewrite String.eqb_refl.
Qed.

(** X9.  [VerifyProof] looks at as many low bits of a non-negative index
    as the proof has digests: two indices that agree on these bits give
    the same result. *)
Theorem X9_VerifyProof_reads_low_bits_of_index
    (data : T) (proof : list string) (rootHash : string) (i j : Z) :
  0 <= i <= Int.max_int -> 0 <= j <= Int.max_int ->
  i mod 2 ^ Z.of_nat (length proof) = j mod 2 ^ Z.of_nat (length proof) ->
  VerifyProof data proof rootHash i = VerifyProof data proof rootHash j.
Proof.
  intros Hi Hj Hbits. unfold VerifyProof.
  rewrite !fold_proof_recombine.
  rewrite (recombine_bounded proof _ i Hi), (recombine_bounded proof _ j Hj).
  now rewrite Hbits.
Qed.

(** X10.  [VerifyProof] gives the same result for an index and for its
    opposite: a negative index is taken for its absolute value. *)
Theorem X10_VerifyProof_ignores_sign_of_index
    (data : T) (proof : list string) (rootHash : string) (index : Z) :
  - Int.max_int <= index <= Int.max_int ->
  VerifyProof data proof rootHash (- index) =
    VerifyProof data proof rootHash index.
Proof.
  intros Hindex. unfold VerifyProof. rewrite !fold_proof_recombine.
  destruct (Z.le_gt_cases 0 index) as [Hpos | Hneg].
  - now rewrite recombine_opp_nonneg by lia.
  - rewrite <- (recombine_opp_nonneg proof _ (- index)) by lia.
    now rewrite Z.opp_involutive.
Qed.

End Further.

Lemma X2_witness :
  exists t : Tree string,
    NewTree ["a"; "b"; "c"; "d"]%string = Returns (Some t, None) /\
    nextPowerOfTwo (Slice.len ["a"; "b"; "c"; "d"]%string) =
      Slice.len ["a"; "b"; "c"; "d"]%string /\
    LeafOffset t = Slice.len ["a"; "b"; "c"; "d"]%string - 1 /\
    Slice.len (Nodes t) = 2 * Slice.len ["a"; "b"; "c"; "d"]%string - 1.
Proof.
  eexists. split.
  - vm_compute. reflexivity.
  - apply (X2_power_of_two_length_is_not_padded ["a"; "b"; "c"; "d"]%string _ 2).
    + lia.
    + reflexivity.
    + vm_compute. reflexivity.
Defined.

Lemma X3_witness :
  exists t : Tree string,
    NewTree ["a"; "b"; "c"]%string = Returns (Some t, None) /\
    exists proof,
      GetProof t 2 = Returns (proof, None) /\
      VerifyProof "c"%string proof (GetRoot t) 2 = Returns true.
Proof.
  eexists. split.
  - vm_compute. reflexivity.
  - apply (X3_round_trip_upto_2_32 ["a"; "b"; "c"]%string).
    + unfold Slice.len. simpl. lia.
    + vm_compute. reflexivity.
    + lia.
    + reflexivity.
Defined.

Lemma X4_witness :
  exists (t : Tree string) (proof : list string),
    NewTree ["a"; "b"; "c"]%string = Returns (Some t, None) /\
    GetProof t 2 = Returns (proof, None) /\
    2 ^ Z.of_nat (length proof) = LeafOffset t + 1 /\
    LeafOffset t + 1 = nextPowerOfTwo (Slice.len ["a"; "b"; "c"]%string).
Proof.
  eexists. eexists. split; [vm_compute; reflexivity |].
  split; [vm_compute; reflexivity |].
  apply (X4_proof_length_upto_2_32 ["a"; "b"; "c"]%string _ 2).
  - unfold Slice.len. simpl. lia.
  - vm_compute. reflexivity.
  - vm_compute. reflexivity.
Defined.

Lemma X5_witness :
  exists t : Tree string,
    NewTree ["a"; "b"; "c"]%string = Returns (Some t, None) /\
    look (Nodes t) (LeafOffset t + 1) = Some (hashData "b"%string).
Proof.
  eexists. split.
  - vm_compute. reflexivity.
  - apply (X5_leaf_slot_holds_item_digest ["a"; "b"; "c"]%string).
    + vm_compute. reflexivity.
    + vm_compute. reflexivity.
    + lia.
    + reflexivity.
Defined.

Lemma X6_witness :
  exists t : Tree string,
    NewTree ["a"; "b"; "c"]%string = Returns (Some t, None) /\
    LeafData t = ["a"; "b"; "c"]%string /\
    LeafCount t = Slice.len ["a"; "b"; "c"]%string /\
    LeafOffset t = nextPowerOfTwo (Slice.len ["a"; "b"; "c"]%string) - 1 /\
    1 <= LeafCount t <= LeafOffset t + 1 /\
    Slice.len (Nodes t) = 2 * LeafOffset t + 1.
Proof.
  eexists. split.
  - vm_compute. reflexivity.
  - apply (X6_fields_of_the_tree ["a"; "b"; "c"]%string).
    + vm_compute. reflexivity.
    + vm_compute. reflexivity.
Defined.

Lemma X7_witness :
  exists t : Tree string,
    NewTree ["a"; "b"; "c"]%string = Returns (Some t, None) /\
    (forall i v, 0 <= i -> look (Nodes t) i = Some v -> hex_digest v) /\
    look (Nodes t) 0 = Some (GetRoot t) /\
    hex_digest (GetRoot t) /\
    GetRoot t <> EmptyString.
Proof.
  eexists. split.
  - vm_compute. reflexivity.
  - apply (X7_nodes_are_hex_digests ["a"; "b"; "c"]%string).
    + vm_compute. reflexivity.
    + vm_compute. reflexivity.
Defined.

Lemma X9_witness :
  VerifyProof "c"%string ["x"; "y"]%string "r"%string 2 =
    VerifyProof "c"%string ["x"; "y"]%string "r"%string 6.
Proof.
  apply X9_VerifyProof_reads_low_bits_of_index.
  - unfold Int.max_int. lia.
  - unfold Int.max_int. lia.
  - reflexivity.
Defined.

Lemma X10_witness :
  VerifyProof "c"%string ["x"]%string "r"%string (- 3) =
    VerifyProof "c"%string ["x"]%string "r"%string 3.
Proof.
  apply (X10_VerifyProof_ignores_sign_of_index
           "c"%string ["x"%string] "r"%string 3).
  unfold Int.max_int. lia.
Defined.

Section Collisions.

Context {T : Type} `{Hashable T}.

(** X11.  For a slice of up to [2^32] items, repeating the last item at
    the end, up to the number of leaf slots, does not change the tree:
    [NewTree] returns the same nodes and the same root. *)
Theorem X11_repeating_last_item_keeps_the_root
    (data : list T) (item : T) (m : nat) (t : Tree T) :
  Slice.len data <= 2 ^ 32 ->
  last data = Some item ->
  NewTree data = Returns (Some t, None) ->
  Slice.len data + Z.of_nat m <= LeafOffset t + 1 ->
  exists t',
    NewTree (data ++ replicate m item) = Returns (Some t', None) /\
    Nodes t' = Nodes t /\
    GetRoot t' = GetRoot t.
Proof.
  intros Hlen Hlast Hnew Hm.
  pose proof (last_nonempty data item Hlast) as Hn.
  pose proof (addressable_upto data Hlen) as Haddr.
  destruct (built_of_NewTree data t Haddr Hnew) as [Hne Hbuilt].
  destruct (nextPowerOfTwo_smallest (Slice.len data) ltac:(lia))
    as (Hpow & Hge & Hleast).
  pose proof Hbuilt as [_ Hoffset _ _ _ _].
  pose proof (nextPowerOfTwo_bounds (Slice.len data) ltac:(lia)) as HP.
  assert (Hlen' : Slice.len (data ++ replicate m item) <= 2 ^ 32).
  { rewrite repeated_len.
    apply (Z.le_trans _ (nextPowerOfTwo (Slice.len data))); [lia |].
    rewrite nextPowerOfTwo_pow2 by lia.
    apply Z.pow_le_mono_r; [lia |].
    apply (levels_least (Slice.len data)); lia. }
  destruct (NewTree_built (data ++ replicate m item)) as (t' & Hnew' & Hbuilt').
  { destruct data; [discriminate Hlast | discriminate]. }
  { now apply addressable_upto. }
  assert (Hsame : nextPowerOfTwo (Slice.len (data ++ replicate m item)) =
                  nextPowerOfTwo (Slice.len data)).
  { destruct (nextPowerOfTwo_smallest (Slice.len (data ++ replicate m item)))
      as (Hpow' & Hge' & Hleast'); [rewrite repeated_len in *; lia |].
    rewrite repeated_len in *.
    specialize (Hleast' _ Hpow ltac:(lia)).
    specialize (Hleast _ Hpow' ltac:(lia)). lia. }
  rewrite Hsame in Hbuilt'.
  assert (Hnodes : Nodes t' = Nodes t).
  { apply (nodes_determined _ _ (nextPowerOfTwo (Slice.len data)) t' t
             ltac:(lia) Hbuilt' Hbuilt).
    intros j Hj. apply repeated_leaf_digest; [assumption | lia]. }
  exists t'. split; [assumption |]. split; [assumption |].
  now apply GetRoot_nodes.
Qed.

(** X13.  For a slice of up to [2^32] items, the root is what the
    level-by-level construction gives: pairing up the padded leaf level,
    once for each level of the tree, leaves the root alone. *)
Theorem X13_root_is_the_level_by_level_root (data : list T) (t : Tree T) :
  Slice.len data <= 2 ^ 32 ->
  NewTree data = Returns (Some t, None) ->
  exists k : nat,
    LeafOffset t + 1 = 2 ^ Z.of_nat k /\
    length (padded_leaves data (LeafOffset t + 1)) = Z.to_nat (2 ^ Z.of_nat k) /\
    Nat.iter k pair_up (padded_leaves data (LeafOffset t + 1)) = [GetRoot t].
Proof.
  intros Hlen Hnew.
  pose proof (addressable_upto data Hlen) as Haddr.
  destruct (built_of_NewTree data t Haddr Hnew) as [Hne Hbuilt].
  destruct (padded_range data Hne Haddr) as [Hn HP].
  pose proof (nextPowerOfTwo_pow2 (Slice.len data) ltac:(lia)) as Hpow.
  pose proof (levels_nonneg (Slice.len data)) as Hk.
  pose proof Hbuilt as [_ Hoffset _ Hnodes _ Hinner].
  exists (Z.to_nat (levels (Slice.len data))).
  rewrite Z2Nat.id by assumption.
  replace (LeafOffset t + 1) with (nextPowerOfTwo (Slice.len data)) by lia.
  split; [assumption |].
  split; [rewrite <- Hpow; apply (padded_leaves_length data _ Hn) |].
  rewrite <- (leaves_segment data _ t Hn Hbuilt).
  destruct (look_in_range (Nodes t) 0 ltac:(lia)) as [root Hroot].
  rewrite (GetRoot_look data _ t Hbuilt root Hroot).
  rewrite <- (segment_root (Nodes t) root Hroot).
  rewrite Hpow in *.
  set (k := Z.to_nat (levels (Slice.len data))).
  replace (levels (Slice.len data)) with (Z.of_nat k) in * by lia.
  apply (iter_pair_up (Nodes t) k Hinner ltac:(lia) k 0%nat). lia.
Qed.

End Collisions.

(** X12.  Items of a defined type over [string] or [[]byte] are all hashed
    as the empty byte sequence: the type switch of [hashData] has no case
    for them.  Two slices of such items of the same length give the same
    nodes and root, and [VerifyProof] does not tell one item from
    another. *)
Theorem X12_defined_types_are_hashed_as_empty
    {U : Type} `{Hashable U} (data data' : list (Defined U))
    (t t' : Tree (Defined U)) :
  Slice.addressable data ->
  Slice.len data = Slice.len data' ->
  NewTree data = Returns (Some t, None) ->
  NewTree data' = Returns (Some t', None) ->
  (forall item : Defined U,
      hashData item =
        "e3b0c44298fc1c149afbf4c8996fb92427ae41e4649b934ca495991b7852b855"%string) /\
  Nodes t = Nodes t' /\
  GetRoot t = GetRoot t' /\
  (forall (item item' : Defined U) proof rootHash index,
      VerifyProof item proof rootHash index =
        VerifyProof item' proof rootHash index).
Proof.
  intros Haddr Hlen Hnew Hnew'.
  assert (Haddr' : Slice.addressable data').
  { unfold Slice.addressable in *. now rewrite <- Hlen. }
  destruct (built_of_NewTree data t Haddr Hnew) as [Hne Hbuilt].
  destruct (built_of_NewTree data' t' Haddr' Hnew') as [Hne' Hbuilt'].
  destruct (padded_range data Hne Haddr) as [Hn HP].
  rewrite <- Hlen in Hbuilt'.
  assert (Hnodes : Nodes t = Nodes t').
  { apply (nodes_determined _ _ (nextPowerOfTwo (Slice.len data)) t t'
             ltac:(lia) Hbuilt Hbuilt').
    intros j Hj. unfold leaf_digest. rewrite <- Hlen.
    set (i := if j <? Slice.len data then j else Slice.len data - 1).
    assert (Hi : 0 <= i < Slice.len data)
      by (unfold i; destruct (Z.ltb_spec j (Slice.len data)); lia).
    destruct (look_in_range data i Hi) as [item ->].
    destruct (look_in_range data' i ltac:(lia)) as [item' ->].
    reflexivity. }
  split; [| split; [assumption | split; [now apply GetRoot_nodes |]]].
  - intros item. rewrite hashData_defined. exact Sum256_empty.
  - intros item item' proof rootHash index. reflexivity.
Qed.

Lemma X11_witness :
  exists t : Tree string,
    NewTree ["a"; "b"; "c"]%string = Returns (Some t, None) /\
    exists t',
      NewTree (["a"; "b"; "c"]%string ++ replicate 1 "c"%string) =
        Returns (Some t', None) /\
      Nodes t' = Nodes t /\
      GetRoot t' = GetRoot t.
Proof.
  eexists. split.
  - vm_compute. reflexivity.
  - apply (X11_repeating_last_item_keeps_the_root ["a"; "b"; "c"]%string).
    + unfold Slice.len. simpl. lia.
    + reflexivity.
    + vm_compute. reflexivity.
    + vm_compute. discriminate.
Defined.

Lemma X12_witness :
  exists t t' : Tree (Defined string),
    NewTree [MkDefined "a"; MkDefined "b"]%string = Returns (Some t, None) /\
    NewTree [MkDefined "x"; MkDefined "y"]%string = Returns (Some t', None) /\
    (forall item : Defined string,
        hashData item =
          "e3b0c44298fc1c149afbf4c8996fb92427ae41e4649b934ca495991b7852b855"%string) /\
    Nodes t = Nodes t' /\
    GetRoot t = GetRoot t' /\
    (forall (item item' : Defined string) proof rootHash index,
        VerifyProof item proof rootHash index =
          VerifyProof item' proof rootHash index).
Proof.
  eexists. eexists. split; [vm_compute; reflexivity |].
  split; [vm_compute; reflexivity |].
  apply (X12_defined_types_are_hashed_as_empty
           [MkDefined "a"; MkDefined "b"]%string
           [MkDefined "x"; MkDefined "y"]%string).
  - vm_compute. reflexivity.
  - reflexivity.
  - vm_compute. reflexivity.
  - vm_compute. reflexivity.
Defined.

Lemma X13_witness :
  exists t : Tree string,
    NewTree ["a"; "b"; "c"]%string = Returns (Some t, None) /\
    exists k : nat,
      LeafOffset t + 1 = 2 ^ Z.of_nat k /\
      length (padded_leaves ["a"; "b"; "c"]%string (LeafOffset t + 1)) =
        Z.to_nat (2 ^ Z.of_nat k) /\
      Nat.iter k pair_up (padded_leaves ["a"; "b"; "c"]%string (LeafOffset t + 1)) =
        [GetRoot t].
Proof.
  eexists. split.
  - vm_compute. reflexivity.
  - apply (X13_root_is_the_level_by_level_root ["a"; "b"; "c"]%string).
    + unfold Slice.len. simpl. lia.
    + vm_compute. reflexivity.
Defined.

(** The tree of ["a", "b", "c", "d"] as README.md shows it printed. *)
Example Print_readme :
  exists t : Tree string,
    NewTree ["a"; "b"; "c"; "d"]%string = Returns (Some t, None) /\
    Print t [] =
      Returns ["└── 58c89d70...";
               "    ├── d3a0f1c7...";
               "    │   ├── 18ac3e73...";
               "    │   └── 2e7d2c03...";
               "    └── 62af5c3c...";
               "        ├── 3e23e816...";
               "        └── ca978112..."]%string.
Proof.
  eexists. split; [vm_compute; reflexivity |]. vm_compute. reflexivity.
Qed.

Section Printing.

Context {T : Type} `{Hashable T}.

(** X14.  [Print] on a tree that [NewTree] returns does not panic and
    writes one line for each node of the array, no node twice: the
    first line is the root's, without indentation, and the line of a
    node shows the first eight characters of its digest and three
    dots. *)
Theorem X14_Print_writes_one_line_per_node
    (data : list T) (t : Tree T) (stdout : list string) :
  Slice.addressable data ->
  NewTree data = Returns (Some t, None) ->
  exists lines order,
    Print t stdout = Returns (stdout ++ lines) /\
    order ≡ₚ seqZ 0 (Slice.len (Nodes t)) /\
    Forall2 (line_of (Nodes t)) order lines /\
    Z.of_nat (length lines) = Slice.len (Nodes t) /\
    head lines =
      Some ("└── " ++ (substring 0 8 (GetRoot t) ++ "..."))%string.
Proof.
  intros Haddr Hnew.
  destruct (built_of_NewTree data t Haddr Hnew) as [Hne Hbuilt].
  destruct (padded_range data Hne Haddr) as [Hn HP].
  pose proof Hbuilt as [_ _ _ Hlen _ _].
  destruct (look_in_range (Nodes t) 0 ltac:(lia)) as [root Hroot].
  destruct (printNode_lines t ltac:(lia)) with
    (fuel := length (Nodes t)) (index := 0) (prefix := EmptyString)
    (isTail := true) (stdout := stdout)
    as (lines & Hprint & Hlines & Hhead).
  { intros i node Hnode.
    destruct (Z.lt_ge_cases i 0) as [Hneg | Hpos].
    - unfold look in Hnode. replace (Z.to_nat i) with 0%nat in Hnode by lia.
      rewrite (node_length data _ t 0 node Hbuilt ltac:(lia) Hnode). lia.
    - rewrite (node_length data _ t i node Hbuilt Hpos Hnode). lia. }
  { lia. }
  { unfold Slice.len. lia. }
  exists lines, (print_order (length (Nodes t)) (Slice.len (Nodes t)) 0).
  assert (Horder : print_order (length (Nodes t)) (Slice.len (Nodes t)) 0
                   ≡ₚ seqZ 0 (Slice.len (Nodes t))).
  { replace (length (Nodes t)) with (Z.to_nat (Slice.len (Nodes t)))
      by (unfold Slice.len; lia).
    apply print_order_all. lia. }
  split; [| split; [assumption | split; [assumption | split]]].
  - unfold Print. destruct (Z.eqb_spec (Slice.len (Nodes t)) 0); [lia |].
    assumption.
  - rewrite <- (Forall2_length _ _ _ Hlines), Horder, length_seqZ. lia.
  - rewrite (GetRoot_look data _ t Hbuilt root Hroot).
    apply (Hhead root Hroot).
Qed.

(** X15.  [Print] panics on a tree whose root has fewer than eight
    characters, the slice [[:8]] being out of range; on the same tree
    without its nodes it writes the line "Empty tree". *)
Theorem X15_Print_on_other_trees
    (t : Tree T) (root : string) (stdout : list string) :
  look (Nodes t) 0 = Some root ->
  (String.length root < 8)%nat ->
  Print t stdout = Panics "slice bounds out of range" /\
  Print (MkTree [] (LeafData t) (LeafOffset t) (LeafCount t)) stdout =
    Returns (stdout ++ ["Empty tree"%string]).
Proof.
  intros Hroot Hshort. split; [| reflexivity].
  pose proof (look_Some_range (Nodes t) 0 root ltac:(lia) Hroot) as Hlen.
  unfold Print. destruct (Z.eqb_spec (Slice.len (Nodes t)) 0); [lia |].
  destruct (length (Nodes t)) as [| fuel] eqn:Hfuel;
    [unfold Slice.len in Hlen; lia |].
  cbn [printNode].
  destruct (Z.geb_spec 0 (Slice.len (Nodes t))); [lia |].
  rewrite (get_look (Nodes t) 0 root ltac:(lia) Hroot).
  cbn [mbind outcome_bind]. unfold string_upto.
  destruct (Z.leb_spec 8 (Z.of_nat (String.length root))); [lia |].
  simpl (0 <=? 8). reflexivity.
Qed.

(** X16.  For a slice of two to [2^32] items, the first digest of the
    proof of an item is the digest in the leaf slot next to the item's:
    that of the item after it when the index is even (of the last item
    again when there is none), that of the item before it when the
    index is odd. *)
Theorem X16_proof_starts_with_the_neighbour
    (data : list T) (t : Tree T) (index : Z) (proof : list string) :
  2 <= Slice.len data <= 2 ^ 32 ->
  NewTree data = Returns (Some t, None) ->
  GetProof t index = Returns (proof, None) ->
  head proof =
    leaf_digest data (if Z.even index then index + 1 else index - 1).
Proof.
  intros Hlen Hnew Hproof.
  pose proof (addressable_upto data ltac:(lia)) as Haddr.
  destruct (built_of_NewTree data t Haddr Hnew) as [Hne Hbuilt].
  destruct (padded_range data Hne Haddr) as [Hn HP].
  assert (Hindex : 0 <= index < Slice.len data).
  { destruct (Z.lt_ge_cases index 0) as [Hneg | Hpos];
      [| destruct (Z.lt_ge_cases index (Slice.len data)) as [Hin | Hout]];
      [| lia |];
      rewrite (GetProof_out_of_range data _ t Hbuilt index) in Hproof
        by lia; discriminate Hproof. }
  pose proof (nextPowerOfTwo_pow2 (Slice.len data) ltac:(lia)) as Hpow.
  assert (Hlevels : 1 <= levels (Slice.len data)).
  { unfold levels. destruct (Z.leb_spec (Slice.len data) 1); [lia |].
    pose proof (Z.log2_nonneg (Slice.len data - 1)). lia. }
  assert (Heven : nextPowerOfTwo (Slice.len data) mod 2 = 0).
  { rewrite Hpow.
    replace (levels (Slice.len data))
      with (Z.succ (levels (Slice.len data) - 1)) by lia.
    rewrite Z.pow_succ_r by lia.
    rewrite Z.mul_comm. apply Z.mod_mul. lia. }
  destruct Hbuilt as [Hcount Hoffset _ Hnodes Hleaves _].
  set (P := nextPowerOfTwo (Slice.len data)) in *.
  unfold GetProof in Hproof. rewrite Hcount, Hoffset in Hproof.
  destruct (Z.ltb_spec index 0); [lia |].
  destruct (Z.geb_spec index (Slice.len data)); [lia |].
  cbn [orb] in Hproof. revert Hproof. unwrap.
  destruct (Z.to_nat (P - 1 + index)) as [| fuel] eqn:Hfuel; [lia |].
  cbn [climb]. destruct (Z.gtb_spec (P - 1 + index) 0); [| lia].
  rewrite rem_two. cbn [mbind outcome_bind]. unwrap.
  rewrite rem_two_nonneg by lia.
  rewrite quo_two by int_range.
  pose proof (Zmod_even index) as Hmod.
  set (next := if Z.even index then index + 1 else index - 1).
  assert (Hnext : 0 <= next < P)
    by (unfold next; destruct (Z.even index); divs).
  replace (if (P - 1 + index) mod 2 =? 1
           then P - 1 + index + 1 else P - 1 + index - 1)
    with (P - 1 + next)
    by (unfold next; destruct (Z.even index);
        destruct (Z.eqb_spec ((P - 1 + index) mod 2) 1); divs).
  destruct (leaf_digest_defined data P ltac:(lia) next ltac:(lia)) as [d Hd].
  rewrite (get_look (Nodes t) (P - 1 + next) d) by
    (lia || (rewrite Hleaves by lia; assumption)).
  cbn [mbind outcome_bind app].
  destruct (climb fuel (Nodes t) _ [d]) as [result | |] eqn:Hclimb;
    cbn [mbind outcome_bind]; try discriminate.
  intros [= <-].
  destruct (climb_extends _ _ _ _ _ Hclimb) as [rest ->].
  rewrite Hd. reflexivity.
Qed.

End Printing.

Lemma X14_witness :
  exists t : Tree string,
    NewTree ["a"; "b"; "c"]%string = Returns (Some t, None) /\
    exists lines order,
      Print t [] = Returns ([] ++ lines) /\
      order ≡ₚ seqZ 0 (Slice.len (Nodes t)) /\
      Forall2 (line_of (Nodes t)) order lines /\
      Z.of_nat (length lines) = Slice.len (Nodes t) /\
      head lines =
        Some ("└── " ++ (substring 0 8 (GetRoot t) ++ "..."))%string.
Proof.
  eexists. split.
  - vm_compute. reflexivity.
  - apply (X14_Print_writes_one_line_per_node ["a"; "b"; "c"]%string).
    + vm_compute. reflexivity.
    + vm_compute. reflexivity.
Defined.

Lemma X15_witness :
  Print (MkTree ["short"%string] ["x"%string] 0 1) [] =
    Panics "slice bounds out of range" /\
  Print (MkTree [] ["x"%string] 0 1) [] = Returns ([] ++ ["Empty tree"%string]).
Proof.
  apply (X15_Print_on_other_trees
           (MkTree ["short"%string] ["x"%string] 0 1) "short"%string []).
  - reflexivity.
  - simpl. lia.
Defined.

Lemma X16_witness :
  exists (t : Tree string) (proof : list string),
    NewTree ["a"; "b"; "c"]%string = Returns (Some t, None) /\
    GetProof t 2 = Returns (proof, None) /\
    head proof =
      leaf_digest ["a"; "b"; "c"]%string (if Z.even 2 then 2 + 1 else 2 - 1).
Proof.
  eexists. eexists. split; [vm_compute; reflexivity |].
  split; [vm_compute; reflexivity |].
  eapply (X16_proof_starts_with_the_neighbour ["a"; "b"; "c"]%string _ 2).
  - unfold Slice.len. simpl. lia.
  - vm_compute. reflexivity.
  - vm_compute. reflexivity.
Defined.
